(** * Spectral Hashing (sh.py): mode enumeration and code generation

    A shallow embedding of [train] (lines 36-63) and [generate_code]
    (lines 100-123) of sh.py, and of the code-length argument and the
    training loop of run.py.

    Number model.  numpy's float64 arrays are embedded as lists of real
    numbers ([R] of the Standard Library): arithmetic is exact, [np.pi] is
    [PI], [np.sin] is [sin], [np.ceil] is [Zceil].  Rounding, overflow and
    NaN are not part of this model.  Where they decide a property, the
    lines concerned are embedded a second time on the primitive binary64
    floats (module [Float64]): the padding [X.min(0) - eps] of lines 40-41,
    which is evaluated there exactly as the hardware does, and the
    arithmetic of [generate_code], with [np.sin] as a parameter.

    The array [modes] holds integer values throughout (it is built from
    [np.ones] and [np.arange]); it is embedded as [list (list Z)] and
    injected into [R] with [IZR] where the source multiplies it with
    [omega0]. *)

From Stdlib Require Import Reals Lra Lia ZArith List Permutation Sorted.
From Stdlib Require Import PrimFloat FloatClass SpecFloat FloatOps FloatAxioms.
From Stdlib Require Import Ascii DecimalNat.
Import ListNotations.

Set Implicit Arguments.

(** ** Python exceptions and the error monad *)

Inductive exn : Set :=
| ValueError
| IndexError
| KeyError
| RuntimeError
| OSError.

Inductive result (A : Type) : Type :=
| Ok (a : A)
| Raise (e : exn).

Arguments Ok {A} a.
Arguments Raise {A} e.

Definition bind {A B : Type} (c : result A) (k : A -> result B) : result B :=
  match c with
  | Ok a => k a
  | Raise e => Raise e
  end.

Notation "x <- c ;; k" := (bind c (fun x => k))
  (at level 61, c at next level, right associativity).

(** ** numpy helpers on integer arrays *)

Module Np.

(** Python slice bound [k] normalised against a sequence of length [n]
    (step 1): a negative bound counts from the end, then it is clipped
    to [0, n]. *)
Definition clip_bound (n k : Z) : Z :=
  if (k <? 0)%Z then Z.max 0 (k + n) else Z.min k n.

(** [np.arange(a, b)] on integers. *)
Definition arange (a b : Z) : list Z :=
  map (fun k => (a + Z.of_nat k)%Z) (seq 0 (Z.to_nat (b - a))).

(** [np.ones([n, c])]; a negative dimension raises ValueError. *)
Definition ones (n : Z) (c : nat) : result (list (list Z)) :=
  if (n <? 0)%Z then Raise ValueError
  else Ok (repeat (repeat 1%Z c) (Z.to_nat n)).

(** [row[i] = v] for an index known to be in range. *)
Fixpoint set_nth (i : nat) (v : Z) (row : list Z) : list Z :=
  match row with
  | [] => []
  | x :: row' =>
      match i with
      | O => v :: row'
      | S i' => x :: set_nth i' v row'
      end
  end.

(** Write [vs] down column [i], one value per row, starting at row [lo]. *)
Fixpoint write_col (rows : list (list Z)) (lo i : nat) (vs : list Z)
  : list (list Z) :=
  match rows with
  | [] => []
  | r :: rows' =>
      match lo with
      | S lo' => r :: write_col rows' lo' i vs
      | O =>
          match vs with
          | [] => r :: rows'
          | v :: vs' => set_nth i v r :: write_col rows' O i vs'
          end
      end
  end.

(** [a[start:stop, i] = vals] for a 2-d array [a] and a 1-d [vals].
    The slice is clipped to the rows of [a]; [vals] must have the length of
    the slice, or length 1 (it is then broadcast); anything else raises
    ValueError ("could not broadcast input array"). *)
Definition assign_col_slice (a : list (list Z)) (start stop : Z) (i : nat)
    (vals : list Z) : result (list (list Z)) :=
  let n := Z.of_nat (length a) in
  let lo := clip_bound n start in
  let hi := clip_bound n stop in
  let len := Z.to_nat (hi - lo) in
  if Nat.eqb (length vals) len then Ok (write_col a (Z.to_nat lo) i vals)
  else
    match vals with
    | [v] => Ok (write_col a (Z.to_nat lo) i (repeat v len))
    | _ => Raise ValueError
    end.

(** [xs[i]] for a non-negative [i]; IndexError out of range. *)
Definition getitem {A : Type} (xs : list A) (i : nat) : result A :=
  match nth_error xs i with
  | Some x => Ok x
  | None => Raise IndexError
  end.

End Np.

(** ** Enumeration of the eigenfunctions (sh.py, lines 46-53) *)

(** One turn of the loop [for i in range(code_length)]: the state is the
    array [modes] and the running row offset [m]. *)
Definition enum_step (max_mode : list Z) (st : list (list Z) * Z) (i : nat)
  : result (list (list Z) * Z) :=
  let '(modes, m) := st in
  mi <- Np.getitem max_mode i ;;
  modes' <- Np.assign_col_slice modes (m + 1) (m + mi) i
              (map (fun x => (x + 1)%Z) (Np.arange 1 mi)) ;;
  Ok (modes', (m + mi - 1)%Z).

Fixpoint enum_loop (max_mode : list Z) (st : list (list Z) * Z)
    (idx : list nat) : result (list (list Z) * Z) :=
  match idx with
  | [] => Ok st
  | i :: idx' =>
      st' <- enum_step max_mode st i ;; enum_loop max_mode st' idx'
  end.

(** [n_modes = max_mode.sum() - len(max_mode) + 1]. *)
Definition n_modes (max_mode : list Z) : Z :=
  (fold_right Z.add 0 max_mode - Z.of_nat (length max_mode) + 1)%Z.

(** Lines 46-53: the candidate rows, after [modes -= 1]. *)
Definition enumerate_modes (code_length : nat) (max_mode : list Z)
  : result (list (list Z)) :=
  modes0 <- Np.ones (n_modes max_mode) code_length ;;
  st <- enum_loop max_mode (modes0, 0%Z) (seq 0 code_length) ;;
  Ok (map (map (fun x => (x - 1)%Z)) (fst st)).

(** ** The candidate set in the words of the specification *)

(** The row of length [c] that carries [k] in dimension [i] and zero
    elsewhere. *)
Definition axis_row (c i : nat) (k : Z) : list Z :=
  Np.set_nth i k (repeat 0%Z c).

(** The single-axis harmonics of dimension [i]: mode index 1 to
    [mx - 1]. *)
Definition axis_rows (c i : nat) (mx : Z) : list (list Z) :=
  map (axis_row c i) (Np.arange 1 mx).

(** The all-zero row, then the harmonics of dimension 0, 1, ... *)
Definition candidates_spec (c : nat) (max_mode : list Z) : list (list Z) :=
  repeat 0%Z c
    :: concat (map (fun i => axis_rows c i (nth i max_mode 0%Z)) (seq 0 c)).

(** ** Real-valued arrays *)

Local Open Scope R_scope.

Module NpR.

(** [a.max()] and [a.min()] of a 1-d array; a zero-size array raises
    ValueError. *)
Definition amax (xs : list R) : result R :=
  match xs with
  | [] => Raise ValueError
  | x :: xs' => Ok (fold_left Rmax xs' x)
  end.

Definition amin (xs : list R) : result R :=
  match xs with
  | [] => Raise ValueError
  | x :: xs' => Ok (fold_left Rmin xs' x)
  end.

(** Column [j] of a matrix given as its list of rows. *)
Definition column (j : nat) (X : list (list R)) : list R :=
  map (fun row => nth j row 0) X.

Fixpoint mapM {A B : Type} (f : A -> result B) (xs : list A)
  : result (list B) :=
  match xs with
  | [] => Ok []
  | x :: xs' => y <- f x ;; ys <- mapM f xs' ;; Ok (y :: ys)
  end.

(** [X.max(0)] and [X.min(0)] of a matrix with [ncol] columns. *)
Definition max0 (ncol : nat) (X : list (list R)) : result (list R) :=
  mapM (fun j => amax (column j X)) (seq 0 ncol).

Definition min0 (ncol : nat) (X : list (list R)) : result (list R) :=
  mapM (fun j => amin (column j X)) (seq 0 ncol).

(** Elementwise binary operation on two 1-d arrays of one shape. *)
Definition zip_with (f : R -> R -> R) (xs ys : list R) : list R :=
  map (fun p => f (fst p) (snd p)) (combine xs ys).

(** [xs.sum()] and [np.prod(xs)] along the last axis. *)
Definition sum (xs : list R) : R := fold_right Rplus 0 xs.
Definition prod (xs : list R) : R := fold_right Rmult 1 xs.

(** [np.sign] on a real number.  (On binary64, where the argument can be
    NaN, it is [Float64.sign].) *)
Definition sign (x : R) : R :=
  if Rlt_dec x 0 then -1 else if Rlt_dec 0 x then 1 else 0.

(** [row[i] = v] on a real row. *)
Fixpoint set_nth (i : nat) (v : R) (row : list R) : list R :=
  match row with
  | [] => []
  | x :: row' =>
      match i with
      | O => v :: row'
      | S i' => x :: set_nth i' v row'
      end
  end.

(** [U[:, i] = y]: one value of [y] per row of [U]. *)
Fixpoint set_column (U : list (list R)) (i : nat) (y : list R)
  : list (list R) :=
  match U, y with
  | u :: U', v :: y' => set_nth i v u :: set_column U' i y'
  | _, _ => U
  end.

End NpR.

(** ** Fitting the uniform distribution (sh.py, lines 39-44) *)

(** [np.finfo(float).eps], the binary64 machine epsilon. *)
Definition eps : R := / 2 ^ 52.

(** Lines 39-41: [mn = X.min(0) - eps], [mx = X.max(0) + eps]; [X] is the
    output of PCA and has [code_length] columns. *)
Definition fit_uniform (code_length : nat) (X : list (list R))
  : result (list R * list R) :=
  lo <- NpR.min0 code_length X ;;
  hi <- NpR.max0 code_length X ;;
  Ok (map (fun x => x - eps) lo, map (fun x => x + eps) hi).

(** Line 44: [R = mx - mn].  (The source's name [R] is the type of the
    reals here; the array is called [rng].) *)
Definition ranges (mn mx : list R) : list R := NpR.zip_with Rminus mx mn.

(** ** Selection of the eigenfunctions (sh.py, lines 45-58) *)

(** Line 45: [np.ceil((code_length + 1) * R / R.max()).astype(np.int)],
    the quotient taken exactly.  (numpy rounds the quotient to binary64
    before [np.ceil], which can lift an entry by one, and for
    [R.max() = 0] the quotient is NaN there; what is proved of [max_mode]
    is for strictly positive ranges and exact quotients.) *)
Definition max_mode (code_length : nat) (rng : list R) : result (list Z) :=
  rmax <- NpR.amax rng ;;
  Ok (map (fun r => Zceil (IZR (Z.of_nat code_length + 1) * r / rmax)) rng).

(** [omega0 = np.pi / R]. *)
Definition omega0 (rng : list R) : list R := map (fun r => PI / r) rng.

(** One row of [modes * omega0.reshape(1, -1)]. *)
Definition omega_row (w0 : list R) (row : list R) : list R :=
  NpR.zip_with Rmult row w0.

(** One entry of [eig_val = -(omegas ** 2).sum(1)]. *)
Definition eig_val (w0 : list R) (row : list R) : R :=
  - NpR.sum (map (fun o => o ^ 2) (omega_row w0 row)).

(** The integer-valued array [modes] as numpy holds it. *)
Definition to_float (modes : list (list Z)) : list (list R) :=
  map (map IZR) modes.

(** The array [-eig_val] that is handed to [argsort], with exact keys.
    (Keys that differ by less than the rounding of binary64 are equal
    there; the order [argsort] gives to equal keys is left open.) *)
Definition sort_keys (rng : list R) (modes : list (list Z)) : list R :=
  map (fun row => - eig_val (omega0 rng) row) (to_float modes).

(** What [keys.argsort()] promises of its result [ii]: a permutation of
    the indices along which the keys ascend.  numpy's default sort is not
    stable, so the order among equal keys is left open. *)
Definition is_argsort (keys : list R) (ii : list nat) : Prop :=
  Permutation ii (seq 0 (length keys))
  /\ StronglySorted Rle (map (fun i => nth i keys 0) ii).

(** [modes[ii[1: code_length + 1], :]]. *)
Definition select_rows (modes : list (list Z)) (ii : list nat)
    (code_length : nat) : list (list Z) :=
  map (fun i => nth i modes []) (firstn code_length (skipn 1 ii)).

(** Lines 45-58 of [train], from [R] to the final [modes]. *)
Definition train_modes (argsort : list R -> list nat) (code_length : nat)
    (rng : list R) : result (list (list Z)) :=
  mm <- max_mode code_length rng ;;
  modes <- enumerate_modes code_length mm ;;
  let ii := argsort (sort_keys rng modes) in
  Ok (select_rows modes ii code_length).

(** An [argsort] that can be run: insertion of each index into the sorted
    indices of the keys after it (a stable sort). *)
Fixpoint insert_idx (keys : list R) (i : nat) (sorted : list nat)
  : list nat :=
  match sorted with
  | [] => [i]
  | j :: rest =>
      if Rle_dec (nth i keys 0) (nth j keys 0) then i :: sorted
      else j :: insert_idx keys i rest
  end.

Definition argsort (keys : list R) : list nat :=
  fold_right (insert_idx keys) [] (seq 0 (length keys)).

(** ** The fitted projector *)

(** Modelled from the spec: the fitted state of [sklearn.decomposition.PCA]
    and its [transform] are not among the sources of the repository.  The
    state is the training mean and the learned directions; [transform]
    centres a row by the mean and projects it onto each direction. *)
Record PCA : Type := {
  mean_ : list R;
  components_ : list (list R)
}.

Definition dot (xs ys : list R) : R := NpR.sum (NpR.zip_with Rmult xs ys).

(** Modelled from the spec: [pca.transform] on one row, "projects onto
    the learned directions (centered by the training mean)". *)
Definition pca_transform_row (pca : PCA) (v : list R) : list R :=
  map (dot (NpR.zip_with Rminus v (mean_ pca))) (components_ pca).

(** Modelled from the spec: [pca.transform] on a matrix, row by row; a
    pure function of the fitted state and the matrix. *)
Definition pca_transform (pca : PCA) (data : list (list R))
  : list (list R) :=
  map (pca_transform_row pca) data.

(** ** Code generation (sh.py, lines 113-123) *)

(** [np.prod(np.sin(data * omegai + np.pi / 2), 1)] for one row of
    [data], with the exact sine.  (The binary64 value of the same
    product is [Float64.yi].) *)
Definition eigen_row (omegai : list R) (v : list R) : R :=
  NpR.prod (map (fun p => sin (fst p * snd p + PI / 2)) (combine v omegai)).

(** One turn of [for i in range(code_length)]: column [i] of [U] is
    written for all rows at once. *)
Definition code_step (data omegas : list (list R)) (U : list (list R))
    (i : nat) : result (list (list R)) :=
  omegai <- Np.getitem omegas i ;;
  let yi := map (eigen_row omegai) data in
  Ok (NpR.set_column U i yi).

Fixpoint code_loop (data omegas : list (list R)) (U : list (list R))
    (idx : list nat) : result (list (list R)) :=
  match idx with
  | [] => Ok U
  | i :: idx' =>
      U' <- code_step data omegas U i ;; code_loop data omegas U' idx'
  end.

(** The arrays of line 113-115: the shifted projection and [omegas]. *)
Definition shifted (pca : PCA) (mn : list R) (data : list (list R))
  : list (list R) :=
  map (fun v => NpR.zip_with Rminus v mn) (pca_transform pca data).

Definition omegas_of (rng : list R) (modes : list (list R))
  : list (list R) :=
  map (omega_row (omega0 rng)) modes.

Definition zeros (n c : nat) : list (list R) := repeat (repeat 0 c) n.

Definition generate_code (data : list (list R)) (code_length : nat)
    (pca : PCA) (mn rng : list R) (modes : list (list R))
  : result (list (list R)) :=
  let data := shifted pca mn data in
  let omegas := omegas_of rng modes in
  let U := zeros (length data) code_length in
  U' <- code_loop data omegas U (seq 0 code_length) ;;
  Ok (map (map NpR.sign) U').

(** Encoding one row at a time: [generate_code] on each one-row matrix,
    the results stacked. *)
Definition generate_code_by_rows (data : list (list R)) (code_length : nat)
    (pca : PCA) (mn rng : list R) (modes : list (list R))
  : result (list (list R)) :=
  codes <- NpR.mapM (fun row =>
                       generate_code [row] code_length pca mn rng modes)
                    data ;;
  Ok (concat codes).

(** ** Shapes

    numpy's elementwise operations are embedded as zips and the quotient
    [np.pi / R] as the quotient of the reals.  Both agree with numpy on
    arrays of matching shapes and on non-zero divisors; the properties of
    [generate_code] are stated for such arguments. *)

(** The arguments [pca], [mn], [R], [modes] as [train] hands them to
    [generate_code]: [code_length] directions, bounds over [code_length]
    dimensions with strictly positive ranges, and a mode table of
    [code_length] rows and columns. *)
Definition fitted (code_length : nat) (pca : PCA) (mn rng : list R)
    (modes : list (list R)) : Prop :=
  length (components_ pca) = code_length /\
  Forall (fun c => length c = length (mean_ pca)) (components_ pca) /\
  length mn = code_length /\
  length rng = code_length /\
  Forall (fun r => 0 < r) rng /\
  length modes = code_length /\
  Forall (fun row => length row = code_length) modes.

(** A data matrix with the columns the projector was fitted on. *)
Definition data_of (pca : PCA) (data : list (list R)) : Prop :=
  Forall (fun v => length v = length (mean_ pca)) data.

(** ** The codec part of [train] (sh.py, lines 36-63) *)

(** From the training data to the two code matrices: the projection [X]
    of the training data (what [fit_transform] returns, the projector
    being fitted), the bounds, the mode table, and [generate_code] on the
    query and on the retrieval data. *)
Definition train_codes (argsort : list R -> list nat) (code_length : nat)
    (pca : PCA) (train_data query_data retrieval_data : list (list R))
  : result (list (list R) * list (list R)) :=
  let X := pca_transform pca train_data in
  b <- fit_uniform code_length X ;;
  let mn := fst b in
  let mx := snd b in
  let rng := ranges mn mx in
  modes <- train_modes argsort code_length rng ;;
  query_code <- generate_code query_data code_length pca mn rng
                  (to_float modes) ;;
  retrieval_code <- generate_code retrieval_data code_length pca mn rng
                      (to_float modes) ;;
  Ok (query_code, retrieval_code).

(** ** The configuration and the driver (run.py)

    Python strings are embedded as lists of 8-bit characters; the
    embedding of [int] covers ASCII text (Python also accepts the decimal
    digits and spaces of other scripts). *)

Module Py.

(** White space as [int] skips it around the literal of an ASCII
    string: tab to carriage return (9-13) and the blank (32). *)
Definition is_space (c : ascii) : bool :=
  let n := nat_of_ascii c in
  ((9 <=? n) && (n <=? 13) || (n =? 32))%nat%bool.

Definition digit_value (c : ascii) : option Z :=
  let n := nat_of_ascii c in
  if ((48 <=? n) && (n <=? 57))%nat%bool then Some (Z.of_nat n - 48)%Z
  else None.

Fixpoint lstrip (s : list ascii) : list ascii :=
  match s with
  | c :: s' => if is_space c then lstrip s' else s
  | [] => []
  end.

Definition strip (s : list ascii) : list ascii :=
  rev (lstrip (rev (lstrip s))).

(** The digits of a base-10 literal: at least one digit, with single
    underscores allowed between digits only.  [prev] tells whether the
    previous character was a digit. *)
Fixpoint digits (acc : Z) (prev : bool) (s : list ascii) : option Z :=
  match s with
  | [] => if prev then Some acc else None
  | c :: s' =>
      match digit_value c with
      | Some d => digits (10 * acc + d) true s'
      | None =>
          if (Ascii.eqb c "_" && prev)%bool then digits acc false s'
          else None
      end
  end.

(** [int(s)] for a string [s]: white space, an optional sign, the
    digits, white space; anything else raises ValueError. *)
Definition int (s : list ascii) : result Z :=
  let body := strip s in
  let signed :=
    match body with
    | c :: t =>
        if Ascii.eqb c "+" then (1%Z, t)
        else if Ascii.eqb c "-" then ((-1)%Z, t)
        else (1%Z, body)
    | [] => (1%Z, body)
    end in
  match digits 0 false (snd signed) with
  | Some n => Ok (fst signed * n)%Z
  | None => Raise ValueError
  end.

(** [s.split(sep)] for a one-character separator: every occurrence of
    [sep] ends a piece; there is always at least one piece. *)
Fixpoint split (sep : ascii) (s : list ascii) : list (list ascii) :=
  match s with
  | [] => [[]]
  | c :: s' =>
      if Ascii.eqb c sep then [] :: split sep s'
      else
        match split sep s' with
        | p :: ps => (c :: p) :: ps
        | [] => [[c]]
        end
  end.

(** [sep.join(pieces)]. *)
Fixpoint join (sep : ascii) (pieces : list (list ascii)) : list ascii :=
  match pieces with
  | [] => []
  | [p] => p
  | p :: ps => p ++ sep :: join sep ps
  end.

Fixpoint chars_of_uint (d : Decimal.uint) : list ascii :=
  match d with
  | Decimal.Nil => []
  | Decimal.D0 d => "0"%char :: chars_of_uint d
  | Decimal.D1 d => "1"%char :: chars_of_uint d
  | Decimal.D2 d => "2"%char :: chars_of_uint d
  | Decimal.D3 d => "3"%char :: chars_of_uint d
  | Decimal.D4 d => "4"%char :: chars_of_uint d
  | Decimal.D5 d => "5"%char :: chars_of_uint d
  | Decimal.D6 d => "6"%char :: chars_of_uint d
  | Decimal.D7 d => "7"%char :: chars_of_uint d
  | Decimal.D8 d => "8"%char :: chars_of_uint d
  | Decimal.D9 d => "9"%char :: chars_of_uint d
  end.

(** [str(n)] for a natural number. *)
Definition str (n : nat) : list ascii := chars_of_uint (Nat.to_uint n).

End Py.

(** run.py, line 76:
    [args.code_length = list(map(int, args.code_length.split(',')))]. *)
Definition parse_code_lengths (arg : list ascii) : result (list Z) :=
  NpR.mapM Py.int (Py.split "," arg).

Section Driver.

(** The calls of [run] into other modules, each of which may raise:
    - [setup]: lines 15-25, the log file, the seeds and [load_data];
    - [train]: [sh.train] on the loaded data (lines 29-38), as a function
      of the code length, and the checkpoint it returns;
    - [log_info]: line 39, [logger.info] of the formatted
      [checkpoint['map']];
    - [save]: line 40, [torch.save] of the checkpoint under its formatted
      file name. *)
Variable checkpoint : Type.
Variable setup : result unit.
Variable train : Z -> result checkpoint.
Variable log_info : Z -> checkpoint -> result unit.
Variable save : Z -> checkpoint -> result unit.

(** Lines 29-40, one turn of the loop: the first call that raises ends
    the turn. *)
Definition loop_body (code_length : Z) : result checkpoint :=
  ck <- train code_length ;;
  logged <- log_info code_length ck ;;
  written <- save code_length ck ;;
  Ok ck.

(** run.py, lines 28-40: the loop over the code lengths.  The state is the
    sequence of checkpoints that [torch.save] has written so far; an
    exception of [train], [logger.info] or [torch.save] leaves the loop
    with the state as it is, the checkpoint of that turn not being
    written. *)
Fixpoint run_loop (code_lengths : list Z) (saved : list (Z * checkpoint))
  : result unit * list (Z * checkpoint) :=
  match code_lengths with
  | [] => (Ok tt, saved)
  | code_length :: rest =>
      match loop_body code_length with
      | Ok ck => run_loop rest (saved ++ [(code_length, ck)])
      | Raise e => (Raise e, saved)
      end
  end.

(** [run] from the command-line argument on: the argument is parsed in
    full (line 14, [load_config]) before anything else is done, and
    lines 15-25 come before the first call of [train]. *)
Definition run (arg : list ascii) : result unit * list (Z * checkpoint) :=
  match parse_code_lengths arg with
  | Ok code_lengths =>
      match setup with
      | Ok _ => run_loop code_lengths []
      | Raise e => (Raise e, [])
      end
  | Raise e => (Raise e, [])
  end.

End Driver.

(** ** Code generation over a store of arrays

    The same function with numpy's arrays as objects in a store, addressed
    by location: every expression of lines 113-116 allocates a new array,
    and the only in-place write is [U[:, i] = yi].  A 1-d array is held as
    the one-row matrix that [reshape(1, -1)] makes of it. *)

Module Store.

Definition loc : Set := nat.
Definition array : Type := list (list R).
Definition store : Type := list array.

Definition M (A : Type) : Type := store -> result (A * store).

Definition ret {A : Type} (a : A) : M A := fun h => Ok (a, h).

Definition mbind {A B : Type} (c : M A) (k : A -> M B) : M B :=
  fun h =>
    match c h with
    | Ok (a, h') => k a h'
    | Raise e => Raise e
    end.

Definition lift {A : Type} (r : result A) : M A :=
  fun h => match r with Ok a => Ok (a, h) | Raise e => Raise e end.

(** Reading the array at a location. *)
Definition load (l : loc) : M array :=
  fun h =>
    match nth_error h l with
    | Some a => Ok (a, h)
    | None => Raise IndexError
    end.

(** A new array object. *)
Definition alloc (a : array) : M loc :=
  fun h => Ok (length h, h ++ [a]).

Fixpoint update (h : store) (l : loc) (a : array) : store :=
  match h with
  | [] => []
  | x :: h' =>
      match l with
      | O => a :: h'
      | S l' => x :: update h' l' a
      end
  end.

(** Overwriting the array at a location in place. *)
Definition put (l : loc) (a : array) : M unit :=
  fun h =>
    match nth_error h l with
    | Some _ => Ok (tt, update h l a)
    | None => Raise IndexError
    end.

End Store.

Notation "x <~ c ;; k" := (Store.mbind c (fun x => k))
  (at level 61, c at next level, right associativity).

Definition row_of (a : Store.array) : list R := hd [] a.

(** One turn of the loop: reads [data] and [omegas], writes [U]. *)
Definition code_step_st (ldata lomegas lU : Store.loc) (i : nat)
  : Store.M unit :=
  omegas <~ Store.load lomegas ;;
  omegai <~ Store.lift (Np.getitem omegas i) ;;
  data <~ Store.load ldata ;;
  let yi := map (eigen_row omegai) data in
  U <~ Store.load lU ;;
  Store.put lU (NpR.set_column U i yi).

Fixpoint code_loop_st (ldata lomegas lU : Store.loc) (idx : list nat)
  : Store.M unit :=
  match idx with
  | [] => Store.ret tt
  | i :: idx' =>
      _ <~ code_step_st ldata lomegas lU i ;;
      code_loop_st ldata lomegas lU idx'
  end.

(** [generate_code] with its arguments [data], [mn], [R], [modes] given
    as locations; the result is the location of the new code array. *)
Definition generate_code_st (data : Store.loc) (code_length : nat)
    (pca : PCA) (mn rng modes : Store.loc) : Store.M Store.loc :=
  d <~ Store.load data ;;
  mnv <~ Store.load mn ;;
  ldata <~ Store.alloc (shifted pca (row_of mnv) d) ;;
  r <~ Store.load rng ;;
  lomega0 <~ Store.alloc [omega0 (row_of r)] ;;
  md <~ Store.load modes ;;
  w0 <~ Store.load lomega0 ;;
  lomegas <~ Store.alloc (map (omega_row (row_of w0)) md) ;;
  d' <~ Store.load ldata ;;
  lU <~ Store.alloc (zeros (length d') code_length) ;;
  _ <~ code_loop_st ldata lomegas lU (seq 0 code_length) ;;
  U <~ Store.load lU ;;
  Store.alloc (map (map NpR.sign) U).

(** ** binary64

    Lines 40-41 and 44, and the arithmetic of [generate_code], on the
    binary64 numbers numpy computes with. *)

Module Float64.

(** [np.finfo(float).eps] as the binary64 number it is. *)
Definition eps : float := 0x1p-52%float.

Definition fmin (a b : float) : float := if PrimFloat.ltb b a then b else a.
Definition fmax (a b : float) : float := if PrimFloat.ltb a b then b else a.

(** Lines 40-41 for one column of [X]: [(mn, mx)] of that dimension. *)
Definition fit_column (col : list float) : result (float * float) :=
  match col with
  | [] => Raise ValueError
  | x :: col' =>
      Ok (PrimFloat.sub (fold_left fmin col' x) eps,
          PrimFloat.add (fold_left fmax col' x) eps)
  end.

(** Line 44 for one dimension. *)
Definition range_of (b : float * float) : float :=
  PrimFloat.sub (snd b) (fst b).

(** [np.pi]. *)
Definition pi : float := 0x1.921fb54442d18p+1%float.

(** Neither an infinity nor NaN. *)
Definition is_finite (x : float) : bool :=
  match PrimFloat.classify x with
  | NaN | PInf | NInf => false
  | _ => true
  end.

(** [np.sign] on float64: NaN is passed through, both zeros give 0. *)
Definition sign (x : float) : float :=
  if PrimFloat.ltb 0 x then 1%float
  else if PrimFloat.ltb x 0 then (-1)%float
  else if PrimFloat.eqb x 0 then 0%float
  else x.

(** [np.prod] along a row, from the left. *)
Definition prod (ys : list float) : float :=
  fold_left PrimFloat.mul ys 1%float.

Definition zip_with (f : float -> float -> float) (xs ys : list float)
  : list float :=
  map (fun p => f (fst p) (snd p)) (combine xs ys).

(** Line 114: [omega0 = np.pi / R]. *)
Definition omega0 (rng : list float) : list float :=
  map (fun r => PrimFloat.div pi r) rng.

(** Line 115: [omegas = modes * omega0.reshape(1, -1)]. *)
Definition omegas_of (rng : list float) (modes : list (list float))
  : list (list float) :=
  map (fun row => zip_with PrimFloat.mul row (omega0 rng)) modes.

(** Line 113, from the projection [X = pca.transform(data)] on:
    [X - mn.reshape(1, -1)]. *)
Definition shifted (mn : list float) (X : list (list float))
  : list (list float) :=
  map (fun v => zip_with PrimFloat.sub v mn) X.

(** Line 119, the argument of [np.sin] for one row [v] of [data]:
    [data * omegai + np.pi / 2]. *)
Definition sin_args (omegai v : list float) : list float :=
  map (fun p => PrimFloat.add (PrimFloat.mul (fst p) (snd p))
                              (PrimFloat.div pi 2))
      (combine v omegai).

(** [row[i] = v] and [U[:, i] = y] on binary64 arrays. *)
Fixpoint set_nth (i : nat) (v : float) (row : list float) : list float :=
  match row with
  | [] => []
  | x :: row' =>
      match i with
      | O => v :: row'
      | S i' => x :: set_nth i' v row'
      end
  end.

Fixpoint set_column (U : list (list float)) (i : nat) (y : list float)
  : list (list float) :=
  match U, y with
  | u :: U', v :: y' => set_nth i v u :: set_column U' i y'
  | _, _ => U
  end.

Definition zeros (n c : nat) : list (list float) :=
  repeat (repeat 0%float c) n.

Section Sine.

(** [np.sin] on float64.  The primitive floats have no sine; it is a
    parameter, and what is used of it is stated where it is used. *)
Variable sin : float -> float.

(** Lines 119-120 for one row [v] of [data]: [np.prod(ys, 1)]. *)
Definition yi (omegai v : list float) : float :=
  prod (map sin (sin_args omegai v)).

(** One turn of [for i in range(code_length)], lines 118-121. *)
Definition code_step (data omegas : list (list float))
    (U : list (list float)) (i : nat) : result (list (list float)) :=
  omegai <- Np.getitem omegas i ;;
  Ok (set_column U i (map (yi omegai) data)).

Fixpoint code_loop (data omegas : list (list float))
    (U : list (list float)) (idx : list nat)
  : result (list (list float)) :=
  match idx with
  | [] => Ok U
  | i :: idx' =>
      U' <- code_step data omegas U i ;; code_loop data omegas U' idx'
  end.

(** Lines 113-123 from the projection [X = pca.transform(data)] on, for
    arrays of matching shapes. *)
Definition generate_code (X : list (list float)) (code_length : nat)
    (mn rng : list float) (modes : list (list float))
  : result (list (list float)) :=
  let data := shifted mn X in
  let omegas := omegas_of rng modes in
  let U := zeros (length data) code_length in
  U' <- code_loop data omegas U (seq 0 code_length) ;;
  Ok (map (map sign) U').

(** The array [U] after the columns before [i] have been written. *)
Definition partial_codes (data omegas : list (list float)) (c i : nat)
  : list (list float) :=
  map (fun v => map (fun om => yi om v) (firstn i omegas)
                ++ repeat 0%float (c - i)) data.

End Sine.

(** What IEEE 754 and the C library give for the sine of an infinity or
    of NaN: NaN. *)
Definition sin_of_non_finite (sin : float -> float) : Prop :=
  forall x, is_finite x = false -> sin x = nan.

End Float64.

(** ** Loop invariants

    Intermediate states of the two loops, used to state their
    invariants. *)

(** The harmonics of dimension [i] as the loop writes them, before
    [modes -= 1]. *)
Definition raw_rows (c i : nat) (mx : Z) : list (list Z) :=
  map (fun v => Np.set_nth i v (repeat 1%Z c))
      (map (fun x => (x + 1)%Z) (Np.arange 1 mx)).

(** Number of rows the dimensions [idx] add to the table. *)
Definition rows_added (max_mode : list Z) (idx : list nat) : nat :=
  fold_right (fun i acc => (Z.to_nat (nth i max_mode 0%Z - 1) + acc)%nat)
             0%nat idx.

(** The array [U] after the columns before [i] have been written. *)
Definition partial_codes (data omegas : list (list R)) (c i : nat)
  : list (list R) :=
  map (fun v => map (fun om => eigen_row om v) (firstn i omegas)
                ++ repeat 0 (c - i)) data.

(** The characters [str] produces. *)
Definition digit_chars : list ascii :=
  ["0"; "1"; "2"; "3"; "4"; "5"; "6"; "7"; "8"; "9"]%char.

(** * Properties *)

(** ** The enumeration on small inputs *)

Example enumerate_3_1 :
  enumerate_modes 2 [3; 1]%Z = Ok [[0; 0]; [1; 0]; [2; 0]]%Z.
Proof. reflexivity. Qed.

Example enumerate_2_3 :
  enumerate_modes 2 [2; 3]%Z = Ok [[0; 0]; [1; 0]; [0; 1]; [0; 2]]%Z.
Proof. reflexivity. Qed.

(** A zero entry in [max_mode] moves the offset back by one: the
    all-zero row is overwritten. *)
Example enumerate_0_3 :
  enumerate_modes 2 [0; 3]%Z = Ok [[0; 1]; [0; 2]]%Z.
Proof. reflexivity. Qed.

(** The slice is clipped and the assignment no longer fits. *)
Example enumerate_3_0 :
  enumerate_modes 2 [3; 0]%Z = Raise ValueError.
Proof. reflexivity. Qed.

(** ** Lists and the error monad *)

Lemma map_nth_seq_id (A : Type) (d : A) (l : list A) :
  map (fun i => nth i l d) (seq 0 (length l)) = l.
Proof.
  apply nth_ext with (d := d) (d' := d).
  - now rewrite length_map, length_seq.
  - intros n Hn. rewrite length_map, length_seq in Hn.
    rewrite nth_indep with (d' := nth 0 l d) by now rewrite length_map, length_seq.
    change (nth 0 l d) with ((fun i => nth i l d) 0%nat).
    rewrite map_nth, seq_nth by assumption. reflexivity.
Qed.

Lemma arange_length (a b : Z) : length (Np.arange a b) = Z.to_nat (b - a).
Proof. unfold Np.arange. now rewrite length_map, length_seq. Qed.

Lemma arange_In (a b x : Z) : In x (Np.arange a b) <-> (a <= x < b)%Z.
Proof.
  unfold Np.arange. rewrite in_map_iff. split.
  - intros [k [<- Hk]]. apply in_seq in Hk. lia.
  - intros H. exists (Z.to_nat (x - a)). split; [lia|]. apply in_seq. lia.
Qed.


Lemma set_nth_map (f : Z -> Z) (i : nat) (v : Z) (row : list Z) :
  map f (Np.set_nth i v row) = Np.set_nth i (f v) (map f row).
Proof.
  revert i; induction row as [|x row IH]; intros [|i]; simpl; auto.
  now rewrite IH.
Qed.

(** ** The enumeration loop *)

Lemma write_col_app (P Q : list (list Z)) (i : nat) (vs : list Z) :
  Np.write_col (P ++ Q) (length P) i vs = P ++ Np.write_col Q 0 i vs.
Proof.
  induction P as [|p P IH]; simpl; [reflexivity|]. now rewrite IH.
Qed.

Lemma write_col_repeat (r : list Z) (k i : nat) (vs : list Z) :
  (length vs <= k)%nat ->
  Np.write_col (repeat r k) 0 i vs
  = map (fun v => Np.set_nth i v r) vs ++ repeat r (k - length vs).
Proof.
  revert k; induction vs as [|v vs IH]; intros k Hk; simpl.
  - rewrite Nat.sub_0_r. destruct k; reflexivity.
  - destruct k as [|k]; simpl in *; [lia|]. rewrite IH by lia. reflexivity.
Qed.

Lemma raw_rows_length (c i : nat) (mx : Z) :
  length (raw_rows c i mx) = Z.to_nat (mx - 1).
Proof. unfold raw_rows. now rewrite !length_map, arange_length. Qed.

Lemma assign_fresh_rows (c : nat) (P : list (list Z)) (k : nat) (m mx : Z)
    (i : nat) :
  Z.of_nat (length P) = (m + 1)%Z ->
  (1 <= mx)%Z ->
  (Z.to_nat (mx - 1) <= k)%nat ->
  Np.assign_col_slice (P ++ repeat (repeat 1%Z c) k) (m + 1) (m + mx) i
      (map (fun x => (x + 1)%Z) (Np.arange 1 mx))
  = Ok (P ++ raw_rows c i mx
          ++ repeat (repeat 1%Z c) (k - Z.to_nat (mx - 1))).
Proof.
  intros HP Hmx Hk. unfold Np.assign_col_slice.
  rewrite length_app, repeat_length.
  assert (Hlo : Np.clip_bound (Z.of_nat (length P + k)) (m + 1) = (m + 1)%Z).
  { unfold Np.clip_bound. destruct (Z.ltb_spec (m + 1) 0); lia. }
  assert (Hhi : Np.clip_bound (Z.of_nat (length P + k)) (m + mx)
                = (m + mx)%Z).
  { unfold Np.clip_bound. destruct (Z.ltb_spec (m + mx) 0); lia. }
  rewrite Hlo, Hhi.
  rewrite length_map, arange_length.
  replace (Z.to_nat (m + mx - (m + 1))) with (Z.to_nat (mx - 1)) by lia.
  rewrite Nat.eqb_refl.
  replace (Z.to_nat (m + 1)) with (length P) by lia.
  rewrite write_col_app, write_col_repeat
    by (rewrite length_map, arange_length; lia).
  rewrite length_map, arange_length. reflexivity.
Qed.

Lemma enum_loop_fresh (c : nat) (max_mode : list Z) (idx : list nat) :
  forall (P : list (list Z)) (k : nat) (m : Z),
    Forall (fun i => (i < length max_mode)%nat
                     /\ (1 <= nth i max_mode 0)%Z) idx ->
    Z.of_nat (length P) = (m + 1)%Z ->
    (rows_added max_mode idx <= k)%nat ->
    enum_loop max_mode (P ++ repeat (repeat 1%Z c) k, m) idx
    = Ok (P ++ concat (map (fun i => raw_rows c i (nth i max_mode 0%Z)) idx)
            ++ repeat (repeat 1%Z c) (k - rows_added max_mode idx),
          (m + Z.of_nat (rows_added max_mode idx))%Z).
Proof.
  induction idx as [|i idx IH]; intros P k m Hidx HP Hk; simpl.
  - now rewrite Nat.sub_0_r, Z.add_0_r.
  - inversion Hidx as [|? ? [Hi Hmx] Hidx']; subst. simpl in Hk.
    unfold Np.getitem.
    rewrite (nth_error_nth' max_mode 0%Z Hi). simpl.
    rewrite assign_fresh_rows by (auto; lia). simpl.
    rewrite app_assoc.
    rewrite IH; auto.
    + rewrite <- !app_assoc, Nat.sub_add_distr. do 2 f_equal. lia.
    + rewrite length_app, raw_rows_length. lia.
    + lia.
Qed.

Lemma rows_added_map (max_mode : list Z) (idx : list nat) :
  rows_added max_mode idx
  = fold_right (fun x acc => (Z.to_nat (x - 1) + acc)%nat) 0%nat
               (map (fun i => nth i max_mode 0%Z) idx).
Proof.
  induction idx as [|i idx IH]; simpl; [reflexivity|]. now rewrite IH.
Qed.

Lemma rows_added_all (max_mode : list Z) :
  Forall (fun x => (1 <= x)%Z) max_mode ->
  Z.of_nat (rows_added max_mode (seq 0 (length max_mode)))
  = (fold_right Z.add 0 max_mode - Z.of_nat (length max_mode))%Z.
Proof.
  rewrite rows_added_map, map_nth_seq_id.
  induction 1 as [|x l Hx Hl IH]; simpl; [reflexivity|]. lia.
Qed.

Lemma n_modes_rows_added (max_mode : list Z) :
  Forall (fun x => (1 <= x)%Z) max_mode ->
  n_modes max_mode
  = Z.of_nat (S (rows_added max_mode (seq 0 (length max_mode)))).
Proof.
  intros H. unfold n_modes. rewrite Nat2Z.inj_succ, rows_added_all by exact H.
  lia.
Qed.

Lemma raw_rows_shift (c i : nat) (mx : Z) :
  map (map (fun x => (x - 1)%Z)) (raw_rows c i mx) = axis_rows c i mx.
Proof.
  unfold raw_rows, axis_rows, axis_row. rewrite !map_map.
  apply map_ext. intros x. rewrite set_nth_map, map_repeat.
  f_equal. lia.
Qed.

Lemma in_range_ge1 (max_mode : list Z) :
  Forall (fun x => (1 <= x)%Z) max_mode ->
  Forall (fun i => (i < length max_mode)%nat /\ (1 <= nth i max_mode 0)%Z)
         (seq 0 (length max_mode)).
Proof.
  intros H. apply Forall_forall. intros i Hi. apply in_seq in Hi.
  split; [lia|]. rewrite Forall_forall in H. apply H, nth_In. lia.
Qed.

(** The loop of lines 47-53 builds the candidate set of the
    specification, in its order, whenever every dimension has
    [max_mode >= 1]. *)
Lemma enumerate_modes_spec (code_length : nat) (max_mode : list Z) :
  length max_mode = code_length ->
  Forall (fun x => (1 <= x)%Z) max_mode ->
  enumerate_modes code_length max_mode
  = Ok (candidates_spec code_length max_mode).
Proof.
  intros Hlen Hge. unfold enumerate_modes, Np.ones.
  rewrite n_modes_rows_added by exact Hge.
  destruct (Z.ltb_spec (Z.of_nat (S (rows_added max_mode
                                        (seq 0 (length max_mode))))) 0);
    [lia|].
  rewrite Nat2Z.id. simpl bind. subst code_length.
  change (repeat 1%Z (length max_mode)
            :: repeat (repeat 1%Z (length max_mode))
                 (rows_added max_mode (seq 0 (length max_mode))))
    with ([repeat 1%Z (length max_mode)]
            ++ repeat (repeat 1%Z (length max_mode))
                 (rows_added max_mode (seq 0 (length max_mode)))).
  rewrite enum_loop_fresh; auto using in_range_ge1.
  simpl. rewrite Nat.sub_diag. simpl. rewrite app_nil_r.
  unfold candidates_spec. rewrite map_repeat. f_equal. f_equal.
  rewrite concat_map, map_map. f_equal.
  apply map_ext. intros i. apply raw_rows_shift.
Qed.

Lemma axis_rows_length (c i : nat) (mx : Z) :
  length (axis_rows c i mx) = Z.to_nat (mx - 1).
Proof. unfold axis_rows. now rewrite length_map, arange_length. Qed.

Lemma candidates_spec_length (max_mode : list Z) :
  Forall (fun x => (1 <= x)%Z) max_mode ->
  Z.of_nat (length (candidates_spec (length max_mode) max_mode))
  = n_modes max_mode.
Proof.
  intros Hge. rewrite n_modes_rows_added by exact Hge.
  unfold candidates_spec. simpl length. f_equal. f_equal.
  generalize (seq 0 (length max_mode)) as idx.
  induction idx as [|i idx IH]; simpl; [reflexivity|].
  now rewrite length_app, axis_rows_length, IH.
Qed.

(** ** [max_mode] *)

Lemma fold_left_Rmax_ge (xs : list R) (x : R) :
  x <= fold_left Rmax xs x
  /\ Forall (fun y => y <= fold_left Rmax xs x) xs.
Proof.
  revert x; induction xs as [|y xs IH]; intros x; simpl.
  - split; [lra | constructor].
  - destruct (IH (Rmax x y)) as [H1 H2]. split.
    + pose proof (Rmax_l x y). lra.
    + constructor; [|exact H2]. pose proof (Rmax_r x y). lra.
Qed.

Lemma fold_left_Rmax_In (xs : list R) (x : R) :
  In (fold_left Rmax xs x) (x :: xs).
Proof.
  revert x; induction xs as [|y xs IH]; intros x; simpl.
  - now left.
  - destruct (IH (Rmax x y)) as [H | H].
    + unfold Rmax in H at 1. destruct (Rle_dec x y); auto.
    + right; right; exact H.
Qed.

Lemma amax_spec (xs : list R) :
  xs <> [] ->
  exists m, NpR.amax xs = Ok m /\ In m xs /\ Forall (fun y => y <= m) xs.
Proof.
  destruct xs as [|x xs]; [congruence|]. intros _.
  exists (fold_left Rmax xs x). simpl. split; [reflexivity|]. split.
  - apply fold_left_Rmax_In.
  - destruct (fold_left_Rmax_ge xs x). now constructor.
Qed.

Lemma Zceil_pos (x : R) : 0 < x -> (1 <= Zceil x)%Z.
Proof.
  intros Hx. destruct (Zceil_bound x) as [_ H].
  assert (0 < IZR (Zceil x)) by lra.
  apply lt_IZR in H0. lia.
Qed.

Lemma Zceil_IZR (z : Z) : Zceil (IZR z) = z.
Proof. apply Zceil_eq. lra. Qed.

(** What line 45 computes for strictly positive ranges: every entry is at
    least 1, at most [code_length + 1], and the widest dimension gets
    exactly [code_length + 1]. *)
Lemma max_mode_spec (code_length : nat) (rng : list R) :
  rng <> [] ->
  Forall (fun r => 0 < r) rng ->
  exists rmax mm,
    NpR.amax rng = Ok rmax /\ 0 < rmax /\
    max_mode code_length rng = Ok mm /\
    mm = map (fun r => Zceil (IZR (Z.of_nat code_length + 1) * r / rmax)) rng /\
    length mm = length rng /\
    Forall (fun x => (1 <= x <= Z.of_nat code_length + 1)%Z) mm /\
    In (Z.of_nat code_length + 1)%Z mm.
Proof.
  intros Hne Hpos.
  destruct (amax_spec Hne) as [rmax [Ha [Hin Hle]]].
  assert (Hrmax : 0 < rmax) by (rewrite Forall_forall in Hpos; auto).
  exists rmax. eexists. unfold max_mode. rewrite Ha. simpl.
  repeat split; try reflexivity; auto.
  - now rewrite length_map.
  - rewrite Forall_forall in *. intros x Hx. apply in_map_iff in Hx.
    destruct Hx as [r [<- Hr]]. specialize (Hpos r Hr). specialize (Hle r Hr).
    assert (Hc : 0 < IZR (Z.of_nat code_length + 1)) by (apply IZR_lt; lia).
    split.
    + apply Zceil_pos. apply Rdiv_lt_0_compat; [nra | exact Hrmax].
    + rewrite <- (Zceil_IZR (Z.of_nat code_length + 1)) at 2.
      apply Zceil_le.
      apply Rmult_le_reg_r with (r := rmax); [exact Hrmax|].
      unfold Rdiv. rewrite Rmult_assoc, Rinv_l by lra. nra.
  - apply in_map_iff. exists rmax. split; [|exact Hin].
    rewrite <- (Zceil_IZR (Z.of_nat code_length + 1)) at 2.
    f_equal. field. lra.
Qed.

Lemma sum_ge_one_more (l : list Z) (x : Z) :
  Forall (fun y => (1 <= y)%Z) l -> In x l ->
  (x + Z.of_nat (length l) - 1 <= fold_right Z.add 0 l)%Z.
Proof.
  induction 1 as [|y l Hy Hl IH]; simpl; [tauto|].
  intros [-> | Hin].
  - assert (0 <= fold_right Z.add 0 l - Z.of_nat (length l))%Z; [|lia].
    clear -Hl. induction Hl; simpl; lia.
  - specialize (IH Hin). lia.
Qed.

(** ** Eigenvalues of the candidate rows *)

Lemma sum_squares_nonneg (xs : list R) :
  0 <= NpR.sum (map (fun o => o ^ 2) xs).
Proof.
  unfold NpR.sum. induction xs as [|x xs IH]; cbn [map fold_right]; [lra|].
  pose proof (pow2_ge_0 x). lra.
Qed.

Lemma eig_val_nonpos (w0 row : list R) : eig_val w0 row <= 0.
Proof.
  unfold eig_val. pose proof (sum_squares_nonneg (omega_row w0 row)). lra.
Qed.

Lemma eig_val_zeros (w0 : list R) (c : nat) :
  eig_val w0 (map IZR (repeat 0%Z c)) = 0.
Proof.
  unfold eig_val, omega_row, NpR.zip_with.
  enough (NpR.sum (map (fun o => o ^ 2)
            (map (fun p => fst p * snd p)
               (combine (map IZR (repeat 0%Z c)) w0))) = 0) by lra.
  unfold NpR.sum.
  revert w0; induction c as [|c IH]; intros [|w w0];
    cbn [repeat map combine fold_right fst snd]; try reflexivity.
  rewrite IH. ring.
Qed.

Lemma eig_val_axis (c i : nat) (k : Z) :
  forall w0 : list R,
    (i < c)%nat -> (c <= length w0)%nat ->
    eig_val w0 (map IZR (axis_row c i k)) = - (IZR k * nth i w0 0) ^ 2.
Proof.
  unfold axis_row. revert i; induction c as [|c IH]; intros i w0 Hi Hw;
    [lia|].
  destruct w0 as [|w w0]; simpl in Hw; [lia|].
  destruct i as [|i].
  - pose proof (eig_val_zeros w0 c) as Hz.
    unfold eig_val, omega_row, NpR.zip_with, NpR.sum in *.
    cbn [repeat Np.set_nth map combine fold_right fst snd nth] in *.
    apply Ropp_eq_0_compat in Hz. rewrite Ropp_involutive in Hz.
    rewrite Hz. ring.
  - specialize (IH i w0 ltac:(lia) ltac:(lia)).
    unfold eig_val, omega_row, NpR.zip_with, NpR.sum in *.
    cbn [repeat Np.set_nth map combine fold_right fst snd nth] in *.
    rewrite <- IH. ring.
Qed.


Lemma candidates_tail_axis (c : nat) (max_mode : list Z) (row : list Z) :
  In row (tl (candidates_spec c max_mode)) ->
  exists i k, (i < c)%nat /\ (1 <= k < nth i max_mode 0)%Z
              /\ row = axis_row c i k.
Proof.
  unfold candidates_spec. simpl. intros H.
  apply in_concat in H. destruct H as [rows [Hrows Hrow]].
  apply in_map_iff in Hrows. destruct Hrows as [i [<- Hi]].
  apply in_seq in Hi. unfold axis_rows in Hrow.
  apply in_map_iff in Hrow. destruct Hrow as [k [<- Hk]].
  apply arange_In in Hk. exists i, k. repeat split; lia.
Qed.



Lemma repeat_Forall (A : Type) (P : A -> Prop) (x : A) (n : nat) :
  P x -> Forall P (repeat x n).
Proof. intros H. induction n; simpl; auto. Qed.


Lemma nth_sort_keys (rng : list R) (modes : list (list Z)) (j : nat) :
  (j < length modes)%nat ->
  nth j (sort_keys rng modes) 0
  = - eig_val (omega0 rng) (map IZR (nth j modes [])).
Proof.
  intros Hj. unfold sort_keys, to_float. rewrite map_map.
  rewrite nth_indep with (d' := - eig_val (omega0 rng) (map IZR []))
    by now rewrite length_map.
  exact (map_nth (fun row => - eig_val (omega0 rng) (map IZR row)) modes [] j).
Qed.

Lemma sort_keys_length (rng : list R) (modes : list (list Z)) :
  length (sort_keys rng modes) = length modes.
Proof. unfold sort_keys, to_float. now rewrite !length_map. Qed.

(** With strictly positive ranges, every single-axis harmonic has a
    strictly negative eigenvalue. *)
Lemma eig_val_axis_neg (rng : list R) (c i : nat) (k : Z) :
  length rng = c -> Forall (fun r => 0 < r) rng ->
  (i < c)%nat -> (1 <= k)%Z ->
  eig_val (omega0 rng) (map IZR (axis_row c i k)) < 0.
Proof.
  intros Hlen Hpos Hi Hk.
  rewrite eig_val_axis by (unfold omega0; rewrite ?length_map; lia).
  unfold omega0.
  rewrite nth_indep with (d' := PI / 0) by (rewrite length_map; lia).
  rewrite (map_nth (fun r => PI / r) rng 0 i).
  assert (Hr : 0 < nth i rng 0).
  { rewrite Forall_forall in Hpos. apply Hpos, nth_In. lia. }
  assert (HkR : 1 <= IZR k) by (apply IZR_le; exact Hk).
  assert (Hw : 0 < PI / nth i rng 0)
    by (apply Rdiv_lt_0_compat; [apply PI_RGT_0 | exact Hr]).
  apply Ropp_lt_gt_0_contravar, pow_lt, Rmult_lt_0_compat; [lra | exact Hw].
Qed.

(** ** Sorting *)

Lemma insert_idx_perm (keys : list R) (i : nat) (s : list nat) :
  Permutation (insert_idx keys i s) (i :: s).
Proof.
  induction s as [|j s IH]; simpl; [reflexivity|].
  destruct (Rle_dec (nth i keys 0) (nth j keys 0)); [reflexivity|].
  rewrite IH. apply perm_swap.
Qed.

Lemma insert_idx_sorted (keys : list R) (i : nat) (s : list nat) :
  StronglySorted Rle (map (fun j => nth j keys 0) s) ->
  StronglySorted Rle (map (fun j => nth j keys 0) (insert_idx keys i s)).
Proof.
  induction s as [|j s IH]; simpl; intros Hs.
  - constructor; constructor.
  - inversion Hs as [|? ? Hs' Hall]; subst.
    destruct (Rle_dec (nth i keys 0) (nth j keys 0)) as [Hle | Hgt]; simpl.
    + constructor; [exact Hs|]. constructor; [exact Hle|].
      eapply Forall_impl; [|exact Hall]. intros; lra.
    + constructor; [auto|].
      rewrite Forall_forall in *. intros x Hx. apply in_map_iff in Hx.
      destruct Hx as [a [<- Ha]].
      apply (Permutation_in _ (insert_idx_perm keys i s)) in Ha.
      destruct Ha as [<- | Ha]; [lra|].
      apply Hall, in_map_iff. now exists a.
Qed.

(** The insertion [argsort] meets the contract of [argsort]. *)
Lemma argsort_ok (keys : list R) : is_argsort keys (argsort keys).
Proof.
  unfold is_argsort, argsort. generalize (seq 0 (length keys)) as idx.
  induction idx as [|i idx [IHp IHs]]; simpl.
  - split; [reflexivity | constructor].
  - split.
    + rewrite insert_idx_perm. now constructor.
    + now apply insert_idx_sorted.
Qed.

Lemma firstn_In (A : Type) (n : nat) (l : list A) (x : A) :
  In x (firstn n l) -> In x l.
Proof.
  intros H. rewrite <- (firstn_skipn n l). apply in_or_app. now left.
Qed.

Lemma skipn_In (A : Type) (n : nat) (l : list A) (x : A) :
  In x (skipn n l) -> In x l.
Proof.
  intros H. rewrite <- (firstn_skipn n l). apply in_or_app. now right.
Qed.


Lemma StronglySorted_skipn (A : Type) (le : A -> A -> Prop) (n : nat)
    (l : list A) :
  StronglySorted le l -> StronglySorted le (skipn n l).
Proof.
  intros H. revert n; induction H as [|x l Hl IH Hx]; intros [|n]; simpl;
    try constructor; auto.
Qed.

(** When index 0 carries the strictly smallest key, every argsort puts it
    first, and the rest are the other indices. *)
Lemma argsort_min_first (keys : list R) (ii : list nat) :
  is_argsort keys ii ->
  (0 < length keys)%nat ->
  (forall j, (1 <= j < length keys)%nat -> nth 0 keys 0 < nth j keys 0) ->
  exists rest, ii = 0%nat :: rest
               /\ Permutation rest (seq 1 (length keys - 1)).
Proof.
  intros [Hperm Hsort] Hn Hmin.
  destruct (length keys) as [|n] eqn:En; [lia|]. simpl in Hperm.
  destruct ii as [|a rest].
  { apply Permutation_nil in Hperm. discriminate. }
  simpl in Hsort. inversion Hsort as [|? ? _ Hall]; subst.
  assert (Ha : a = 0%nat).
  { destruct (Nat.eq_dec a 0) as [|Hne]; [assumption|exfalso].
    assert (H0 : In 0%nat (a :: rest))
      by (eapply Permutation_in; [symmetry; exact Hperm | now left]).
    destruct H0 as [|H0]; [congruence|].
    assert (Hin : In a (0%nat :: seq 1 n))
      by (eapply Permutation_in; [exact Hperm | now left]).
    destruct Hin as [|Hin]; [congruence|]. apply in_seq in Hin.
    rewrite Forall_forall in Hall.
    specialize (Hall (nth 0 keys 0)
                  ltac:(apply in_map_iff; exists 0%nat; auto)).
    specialize (Hmin a ltac:(lia)). lra. }
  subst a. exists rest. split; [reflexivity|].
  simpl. rewrite Nat.sub_0_r. eapply Permutation_cons_inv. exact Hperm.
Qed.

(** ** The candidate rows *)

Lemma nth_set_nth_eq (i : nat) (v : Z) (row : list Z) :
  (i < length row)%nat -> nth i (Np.set_nth i v row) 0%Z = v.
Proof.
  revert i; induction row as [|x row IH]; intros [|i] H; simpl in *;
    try lia; auto. apply IH. lia.
Qed.

Lemma nth_set_nth_neq (i j : nat) (v : Z) (row : list Z) :
  i <> j -> nth j (Np.set_nth i v row) 0%Z = nth j row 0%Z.
Proof.
  revert i j; induction row as [|x row IH]; intros [|i] [|j] H; simpl;
    try congruence; auto.
Qed.

Lemma nth_repeat_0 (c j : nat) : nth j (repeat 0%Z c) 0%Z = 0%Z.
Proof.
  revert j; induction c as [|c IH]; intros [|j]; simpl; auto.
Qed.

Lemma axis_row_nth_eq (c i : nat) (k : Z) :
  (i < c)%nat -> nth i (axis_row c i k) 0%Z = k.
Proof.
  intros H. unfold axis_row. apply nth_set_nth_eq. now rewrite repeat_length.
Qed.

Lemma axis_row_nth_neq (c i j : nat) (k : Z) :
  i <> j -> nth j (axis_row c i k) 0%Z = 0%Z.
Proof.
  intros H. unfold axis_row. rewrite nth_set_nth_neq by exact H.
  apply nth_repeat_0.
Qed.

Lemma axis_row_not_zero (c i : nat) (k : Z) :
  (i < c)%nat -> (1 <= k)%Z -> axis_row c i k <> repeat 0%Z c.
Proof.
  intros Hi Hk Heq.
  assert (H : nth i (axis_row c i k) 0%Z = nth i (repeat 0%Z c) 0%Z)
    by now rewrite Heq.
  rewrite axis_row_nth_eq, nth_repeat_0 in H by exact Hi. lia.
Qed.

Lemma candidates_spec_In (c : nat) (max_mode : list Z) (row : list Z) :
  In row (candidates_spec c max_mode) <->
  row = repeat 0%Z c
  \/ exists i k, (i < c)%nat /\ (1 <= k <= nth i max_mode 0 - 1)%Z
                 /\ row = axis_row c i k.
Proof.
  split.
  - intros [<- | H]; [now left | right].
    destruct (candidates_tail_axis _ _ _ H) as [i [k [Hi [Hk ->]]]].
    exists i, k. repeat split; auto; lia.
  - intros [-> | [i [k [Hi [Hk ->]]]]]; [now left | right].
    apply in_concat. exists (axis_rows c i (nth i max_mode 0%Z)). split.
    + apply in_map_iff. exists i. split; [reflexivity|]. apply in_seq. lia.
    + unfold axis_rows. apply in_map, arange_In. lia.
Qed.

(** What lines 45-53 yield for strictly positive ranges. *)
Lemma candidates_built (code_length : nat) (rng : list R) :
  (1 <= code_length)%nat ->
  length rng = code_length ->
  Forall (fun r => 0 < r) rng ->
  exists mm,
    max_mode code_length rng = Ok mm /\
    length mm = code_length /\
    Forall (fun x => (1 <= x)%Z) mm /\
    enumerate_modes code_length mm = Ok (candidates_spec code_length mm) /\
    (code_length + 1 <= length (candidates_spec code_length mm))%nat.
Proof.
  intros HL Hlen Hpos.
  assert (Hne : rng <> []) by (destruct rng; simpl in *; [lia | congruence]).
  destruct (max_mode_spec code_length Hne Hpos)
    as [rmax [mm [_ [_ [Hmm [_ [Hl [Hall Hin]]]]]]]].
  assert (Hge : Forall (fun x => (1 <= x)%Z) mm)
    by (eapply Forall_impl; [|exact Hall]; simpl; intros; lia).
  assert (Hlmm : length mm = code_length) by congruence.
  exists mm. repeat split; auto.
  - now apply enumerate_modes_spec.
  - pose proof (candidates_spec_length Hge) as Hc.
    pose proof (@sum_ge_one_more mm _ Hge Hin) as Hs.
    rewrite Hlmm in Hc. unfold n_modes in Hc. lia.
Qed.

(** ** Mode enumeration *)



(** C4. For [L >= 1] and [L] strictly positive ranges the enumeration
    yields the all-zero row and at least [L] non-constant rows:
    [sum(max_mode) - L >= L], at least [L + 1] candidates in all. *)
Theorem enough_candidates (code_length : nat) (rng : list R) :
  (1 <= code_length)%nat ->
  length rng = code_length ->
  Forall (fun r => 0 < r) rng ->
  exists mm others,
    max_mode code_length rng = Ok mm /\
    enumerate_modes code_length mm
    = Ok (repeat 0%Z code_length :: others) /\
    Forall (fun row => row <> repeat 0%Z code_length) others /\
    (code_length <= length others)%nat /\
    (Z.of_nat code_length
     <= fold_right Z.add 0 mm - Z.of_nat code_length)%Z /\
    (Z.of_nat code_length + 1 <= n_modes mm)%Z.
Proof.
  intros HL Hlen Hpos.
  destruct (candidates_built HL Hlen Hpos)
    as [mm [Hmm [Hlmm [Hge [Hen Hn]]]]].
  exists mm, (tl (candidates_spec code_length mm)).
  pose proof (candidates_spec_length Hge) as Hc. rewrite Hlmm in Hc.
  repeat split; auto.
  - apply Forall_forall. intros row Hrow.
    destruct (candidates_tail_axis _ _ _ Hrow) as [i [k [Hi [Hk ->]]]].
    apply axis_row_not_zero; lia.
  - simpl in *. lia.
  - unfold n_modes in Hc. rewrite Hlmm in Hc. lia.
  - lia.
Qed.

Lemma enough_candidates_witness :
  (1 <= 2)%nat /\ length [1; 2] = 2%nat /\ Forall (fun r => 0 < r) [1; 2]
  /\ exists mm, max_mode 2 [1; 2] = Ok mm /\ (3 <= n_modes mm)%Z.
Proof.
  assert (H1 : (1 <= 2)%nat) by lia.
  assert (H2 : length [1; 2] = 2%nat) by reflexivity.
  assert (H3 : Forall (fun r => 0 < r) [1; 2]) by (repeat constructor; lra).
  repeat split; auto.
  destruct (enough_candidates H1 H2 H3)
    as [mm [others [Hmm [_ [_ [_ [_ Hn]]]]]]].
  exists mm. split; [exact Hmm | exact Hn].
Defined.

(** ** The selected mode table *)

Lemma abs_eig_is_key (rng : list R) (cands : list (list Z)) (i : nat) :
  (i < length cands)%nat ->
  Rabs (eig_val (omega0 rng) (map IZR (nth i cands [])))
  = nth i (sort_keys rng cands) 0.
Proof.
  intros Hi. rewrite nth_sort_keys by exact Hi.
  apply Rabs_left1, eig_val_nonpos.
Qed.

(** The keys handed to [argsort]: index 0 carries key 0, every other
    index a strictly positive key. *)
Lemma zero_key_least (code_length : nat) (rng : list R) (mm : list Z)
    (j : nat) :
  length rng = code_length ->
  Forall (fun r => 0 < r) rng ->
  (1 <= j < length (candidates_spec code_length mm))%nat ->
  nth 0 (sort_keys rng (candidates_spec code_length mm)) 0
  < nth j (sort_keys rng (candidates_spec code_length mm)) 0.
Proof.
  intros Hlen Hpos Hj.
  rewrite !nth_sort_keys by lia.
  change (nth 0 (candidates_spec code_length mm) [])
    with (repeat 0%Z code_length).
  rewrite eig_val_zeros.
  assert (Hin : In (nth j (candidates_spec code_length mm) [])
                   (tl (candidates_spec code_length mm))).
  { destruct j as [|j]; [lia|]. simpl. apply nth_In. simpl in Hj. lia. }
  destruct (candidates_tail_axis _ _ _ Hin) as [i [k [Hi [Hk ->]]]].
  pose proof (@eig_val_axis_neg rng code_length i k Hlen Hpos Hi
                ltac:(lia)).
  lra.
Qed.



Lemma nth_omega0 (rng : list R) (d : nat) :
  (d < length rng)%nat -> nth d (omega0 rng) 0 = PI / nth d rng 0.
Proof.
  intros Hd. unfold omega0.
  rewrite nth_indep with (d' := PI / 0) by (rewrite length_map; lia).
  exact (map_nth (fun r => PI / r) rng 0 d).
Qed.

Lemma selected_index_tail (code_length : nat) (mm : list Z)
    (rest : list nat) (i : nat) :
  Permutation rest (seq 1 (length (candidates_spec code_length mm) - 1)) ->
  In i (firstn code_length rest) ->
  (1 <= i < length (candidates_spec code_length mm))%nat
  /\ In (nth i (candidates_spec code_length mm) [])
        (tl (candidates_spec code_length mm)).
Proof.
  intros Hperm Hi. apply firstn_In in Hi.
  apply (Permutation_in _ Hperm) in Hi. apply in_seq in Hi.
  split; [lia|].
  destruct i as [|i]; [lia|]. simpl. apply nth_In. simpl in Hi. lia.
Qed.

Section ModeTable.

(** The sort that backs [ndarray.argsort], known by its contract only. *)
Variable sort_indices : list R -> list nat.
Hypothesis sort_indices_ok : forall keys, is_argsort keys (sort_indices keys).

Variable code_length : nat.
Variable rng : list R.
Hypothesis code_length_pos : (1 <= code_length)%nat.
Hypothesis rng_length : length rng = code_length.
Hypothesis rng_pos : Forall (fun r => 0 < r) rng.

(** Lines 45-58 for strictly positive ranges: the table is the rows of
    the candidates at the indices [ii[1 : code_length + 1]], where [ii]
    begins with the index 0 of the all-zero row. *)
Lemma train_modes_selected :
  exists mm rest,
    max_mode code_length rng = Ok mm /\
    length mm = code_length /\
    enumerate_modes code_length mm = Ok (candidates_spec code_length mm) /\
    sort_indices (sort_keys rng (candidates_spec code_length mm))
    = 0%nat :: rest /\
    Permutation rest
      (seq 1 (length (candidates_spec code_length mm) - 1)) /\
    (code_length <= length rest)%nat /\
    StronglySorted Rle
      (map (fun i => nth i (sort_keys rng (candidates_spec code_length mm)) 0)
           rest) /\
    train_modes sort_indices code_length rng
    = Ok (map (fun i => nth i (candidates_spec code_length mm) [])
              (firstn code_length rest)).
Proof.
  destruct (candidates_built code_length_pos rng_length rng_pos)
    as [mm [Hmm [Hlmm [Hge [Hen Hn]]]]].
  pose proof (sort_indices_ok (sort_keys rng (candidates_spec code_length mm)))
    as Hsort.
  destruct (argsort_min_first Hsort) as [rest [Hii Hperm]].
  - rewrite sort_keys_length. lia.
  - intros j Hj. rewrite sort_keys_length in Hj.
    now apply zero_key_least.
  - rewrite sort_keys_length in Hperm.
    exists mm, rest. repeat split; auto.
    + apply Permutation_length in Hperm. rewrite length_seq in Hperm. lia.
    + destruct Hsort as [_ Hs]. rewrite Hii in Hs. simpl in Hs.
      now inversion Hs.
    + unfold train_modes. rewrite Hmm. simpl. rewrite Hen. simpl.
      unfold select_rows. now rewrite Hii.
Qed.


End ModeTable.


(** *** A run on the ranges [4; 1]

    [max_mode] is [3; 1], the candidates are the all-zero row and the
    first two harmonics of dimension 0, and these two are selected. *)

Lemma max_mode_4_1 : max_mode 2 [4; 1] = Ok [3; 1]%Z.
Proof.
  unfold max_mode. simpl.
  replace (Rmax 4 1) with 4 by (symmetry; apply Rmax_left; lra).
  simpl. repeat f_equal; apply Zceil_eq; simpl; lra.
Qed.

Lemma sort_keys_4_1 :
  sort_keys [4; 1] [[0; 0]; [1; 0]; [2; 0]]%Z
  = [0; (PI / 4) ^ 2; (PI / 2) ^ 2].
Proof.
  unfold sort_keys, to_float, eig_val, omega_row, omega0, NpR.zip_with,
    NpR.sum.
  cbn [map combine fold_right fst snd]. repeat f_equal; field.
Qed.

Example train_modes_4_1 (sort_indices : list R -> list nat) :
  (forall keys, is_argsort keys (sort_indices keys)) ->
  train_modes sort_indices 2 [4; 1] = Ok [[1; 0]; [2; 0]]%Z.
Proof.
  intros Hsort. unfold train_modes. rewrite max_mode_4_1. cbn [bind].
  change (enumerate_modes 2 [3; 1]%Z) with (Ok [[0; 0]; [1; 0]; [2; 0]]%Z).
  cbn [bind]. f_equal.
  destruct (Hsort (sort_keys [4; 1] [[0; 0]; [1; 0]; [2; 0]]%Z))
    as [Hperm Hs].
  rewrite sort_keys_4_1 in *.
  set (ii := sort_indices [0; (PI / 4) ^ 2; (PI / 2) ^ 2]) in *.
  pose proof PI_RGT_0 as Hpi.
  assert (H01 : 0 < (PI / 4) ^ 2) by (apply pow_lt; lra).
  assert (H12 : (PI / 4) ^ 2 < (PI / 2) ^ 2) by nra.
  assert (Hii : ii = [0; 1; 2]%nat).
  { pose proof (Permutation_length Hperm) as Hl. simpl in Hl, Hperm.
    destruct ii as [|a [|b [|c [|]]]]; try discriminate.
    assert (Ha : In a [0; 1; 2]%nat)
      by (eapply Permutation_in; [exact Hperm | simpl; auto]).
    assert (Hb : In b [0; 1; 2]%nat)
      by (eapply Permutation_in; [exact Hperm | simpl; auto]).
    assert (Hc : In c [0; 1; 2]%nat)
      by (eapply Permutation_in; [exact Hperm | simpl; auto]).
    simpl in Hs. inversion Hs as [|? ? Hs1 Hf1]; subst.
    inversion Hs1 as [|? ? _ Hf2]; subst.
    inversion Hf1 as [|? ? Hab Hf1']; subst.
    inversion Hf1' as [|? ? Hac _]; subst.
    inversion Hf2 as [|? ? Hbc _]; subst.
    assert (Hnd : NoDup [a; b; c]).
    { eapply Permutation_NoDup; [symmetry; exact Hperm|].
      repeat constructor; simpl; intuition lia. }
    inversion Hnd as [|? ? Hna Hnd']; subst.
    inversion Hnd' as [|? ? Hnb _]; subst.
    simpl in Ha, Hb, Hc, Hna, Hnb.
    destruct Ha as [<- | [<- | [<- | []]]];
      destruct Hb as [<- | [<- | [<- | []]]];
      destruct Hc as [<- | [<- | [<- | []]]];
      simpl in *; try reflexivity; try (exfalso; intuition lia);
      exfalso; lra. }
  rewrite Hii. reflexivity.
Qed.

(** ** Code generation *)

Lemma set_column_map (A : Type) (g : A -> list R) (h : A -> R) (i : nat)
    (data : list A) :
  NpR.set_column (map g data) i (map h data)
  = map (fun v => NpR.set_nth i (h v) (g v)) data.
Proof.
  induction data as [|v data IH]; simpl; [reflexivity|]. now rewrite IH.
Qed.

Lemma set_nth_fill (pre : list R) (y : R) (k : nat) :
  NpR.set_nth (length pre) y (pre ++ repeat 0 (S k))
  = (pre ++ [y]) ++ repeat 0 k.
Proof.
  induction pre as [|x pre IH]; [reflexivity|].
  cbn [length app NpR.set_nth]. now rewrite IH.
Qed.

Lemma firstn_succ (A : Type) (d : A) (i : nat) (l : list A) :
  (i < length l)%nat -> firstn (S i) l = firstn i l ++ [nth i l d].
Proof.
  revert i; induction l as [|x l IH]; intros i Hi; simpl in Hi; [lia|].
  destruct i as [|i]; [reflexivity|].
  change (firstn (S (S i)) (x :: l)) with (x :: firstn (S i) l).
  rewrite IH by lia. reflexivity.
Qed.

Lemma code_step_partial (data omegas : list (list R)) (c i : nat) :
  (i < c)%nat -> (i < length omegas)%nat ->
  code_step data omegas (partial_codes data omegas c i) i
  = Ok (partial_codes data omegas c (S i)).
Proof.
  intros Hi Hio. unfold code_step, Np.getitem.
  rewrite (nth_error_nth' omegas [] Hio).
  simpl. f_equal. unfold partial_codes. rewrite set_column_map.
  apply map_ext. intros v.
  rewrite (@firstn_succ _ [] i omegas) by lia.
  rewrite map_app. simpl map.
  replace (c - i)%nat with (S (c - S i)) by lia.
  set (pre := map (fun om => eigen_row om v) (firstn i omegas)).
  assert (Hpre : length pre = i)
    by (unfold pre; rewrite length_map, length_firstn; lia).
  rewrite <- Hpre at 1. apply set_nth_fill.
Qed.

Lemma code_loop_partial (data omegas : list (list R)) (c : nat) :
  (c <= length omegas)%nat ->
  forall cnt i, (i + cnt = c)%nat ->
    code_loop data omegas (partial_codes data omegas c i) (seq i cnt)
    = Ok (partial_codes data omegas c c).
Proof.
  intros Hc. induction cnt as [|cnt IH]; intros i Hi; simpl.
  - replace i with c by lia. reflexivity.
  - rewrite code_step_partial by lia. simpl. apply IH. lia.
Qed.

(** The column-by-column loop computes, for every row of the data, the
    sign of the eigenfunction of each of the first [code_length] rows of
    [modes]. *)
Lemma generate_code_rows (data : list (list R)) (code_length : nat)
    (pca : PCA) (mn rng : list R) (modes : list (list R)) :
  (code_length <= length modes)%nat ->
  generate_code data code_length pca mn rng modes
  = Ok (map (fun v => map (fun om => NpR.sign (eigen_row om v))
                          (firstn code_length (omegas_of rng modes)))
            (shifted pca mn data)).
Proof.
  intros Hc. unfold generate_code.
  assert (Hz : zeros (length (shifted pca mn data)) code_length
               = partial_codes (shifted pca mn data) (omegas_of rng modes)
                   code_length 0).
  { unfold zeros, partial_codes. simpl. rewrite Nat.sub_0_r.
    generalize (shifted pca mn data) as d.
    induction d as [|v d IH]; simpl; [reflexivity|]. now rewrite IH. }
  rewrite Hz, code_loop_partial
    by (unfold omegas_of; rewrite ?length_map; lia).
  simpl. f_equal. unfold partial_codes. rewrite map_map.
  apply map_ext. intros v.
  rewrite Nat.sub_diag. simpl. rewrite app_nil_r. now rewrite map_map.
Qed.

Lemma nth_map_in (A B : Type) (f : A -> B) (l : list A) (d : B) (d' : A)
    (n : nat) :
  (n < length l)%nat -> nth n (map f l) d = f (nth n l d').
Proof.
  intros Hn. rewrite nth_indep with (d' := f d') by now rewrite length_map.
  apply map_nth.
Qed.

Lemma zip_with_length (f : R -> R -> R) (xs ys : list R) :
  length (NpR.zip_with f xs ys) = Nat.min (length xs) (length ys).
Proof. unfold NpR.zip_with. now rewrite length_map, length_combine. Qed.

Lemma zip_with_nth (f : R -> R -> R) (xs ys : list R) (j : nat) :
  (j < length xs)%nat -> (j < length ys)%nat ->
  nth j (NpR.zip_with f xs ys) 0 = f (nth j xs 0) (nth j ys 0).
Proof.
  unfold NpR.zip_with.
  revert ys j; induction xs as [|x xs IH]; intros [|y ys] [|j] Hx Hy;
    simpl in *; try lia; auto.
  apply IH; lia.
Qed.




(** *** NaN in binary64 *)















(** A function that maps what is not finite to NaN, as [np.sin] does,
    exists. *)
Example sin_of_non_finite_holds :
  Float64.sin_of_non_finite
    (fun x => if Float64.is_finite x then 0%float else nan).
Proof. intros x Hx. now rewrite Hx. Qed.


(** ** One dimension per bit *)




(** ** Rows are encoded independently *)

Lemma mapM_total (A B : Type) (g : A -> B) (xs : list A) :
  NpR.mapM (fun x => Ok (g x)) xs = Ok (map g xs).
Proof.
  induction xs as [|x xs IH]; simpl; [reflexivity|]. now rewrite IH.
Qed.

Lemma mapM_ext (A B : Type) (f g : A -> result B) (xs : list A) :
  (forall x, f x = g x) -> NpR.mapM f xs = NpR.mapM g xs.
Proof.
  intros H. induction xs as [|x xs IH]; simpl; [reflexivity|].
  now rewrite H, IH.
Qed.

Lemma concat_singletons (A B : Type) (g : A -> B) (xs : list A) :
  concat (map (fun x => [g x]) xs) = map g xs.
Proof.
  induction xs as [|x xs IH]; simpl; [reflexivity|]. now rewrite IH.
Qed.

(** C8. For fitted arguments, encoding the rows of a matrix one at a
    time and concatenating the results equals encoding the whole matrix
    at once; the code of a row is a function of that row (and of the
    projector, the bounds and the mode table) alone. *)
Theorem generate_code_row_independent (data : list (list R))
    (code_length : nat) (pca : PCA) (mn rng : list R)
    (modes : list (list R)) :
  fitted code_length pca mn rng modes ->
  data_of pca data ->
  generate_code data code_length pca mn rng modes
  = generate_code_by_rows data code_length pca mn rng modes
  /\ exists code_of_row : list R -> list R,
       (forall row,
          generate_code [row] code_length pca mn rng modes
          = Ok [code_of_row row])
       /\ generate_code data code_length pca mn rng modes
          = Ok (map code_of_row data).
Proof.
  intros [_ [_ [_ [_ [_ [Hmodes _]]]]]] _.
  assert (Hc : (code_length <= length modes)%nat) by lia.
  set (code_of_row := fun row =>
         map (fun om => NpR.sign (eigen_row om
                                    (NpR.zip_with Rminus
                                       (pca_transform_row pca row) mn)))
             (firstn code_length (omegas_of rng modes))).
  assert (Hone : forall row,
             generate_code [row] code_length pca mn rng modes
             = Ok [code_of_row row]).
  { intros row. rewrite generate_code_rows by exact Hc. reflexivity. }
  assert (Hall : generate_code data code_length pca mn rng modes
                 = Ok (map code_of_row data)).
  { rewrite generate_code_rows by exact Hc.
    unfold shifted, pca_transform. now rewrite !map_map. }
  split.
  - unfold generate_code_by_rows.
    rewrite (mapM_ext _ (fun row => Ok [code_of_row row]) data Hone).
    rewrite mapM_total. simpl. now rewrite concat_singletons.
  - exists code_of_row. split; assumption.
Qed.

Lemma generate_code_row_independent_witness :
  generate_code [[0]; [1]] 1 {| mean_ := [0]; components_ := [[1]] |}
                [0] [1] [[1]]
  = generate_code_by_rows [[0]; [1]] 1
      {| mean_ := [0]; components_ := [[1]] |} [0] [1] [[1]].
Proof.
  apply (@generate_code_row_independent [[0]; [1]] 1
           {| mean_ := [0]; components_ := [[1]] |} [0] [1] [[1]]).
  - unfold fitted; simpl; repeat split; repeat constructor; lra.
  - repeat constructor.
Defined.

(** ** The store *)

Lemma nth_error_old (A : Type) (h h' : list A) (l : nat) (a : A) :
  nth_error h l = Some a -> nth_error (h ++ h') l = Some a.
Proof.
  intros H. rewrite nth_error_app1; [exact H|].
  apply nth_error_Some. congruence.
Qed.

Lemma nth_error_new (A : Type) (h : list A) (a : A) :
  nth_error (h ++ [a]) (length h) = Some a.
Proof.
  rewrite nth_error_app2 by lia. now rewrite Nat.sub_diag.
Qed.

Lemma update_same (h : Store.store) (l : Store.loc) (a b : Store.array) :
  nth_error h l = Some a -> nth_error (Store.update h l b) l = Some b.
Proof.
  revert l; induction h as [|x h IH]; intros [|l] H; simpl in *;
    try discriminate; auto.
Qed.

Lemma update_other (h : Store.store) (l l' : Store.loc) (b : Store.array) :
  l <> l' -> nth_error (Store.update h l b) l' = nth_error h l'.
Proof.
  revert l l'; induction h as [|x h IH]; intros [|l] [|l'] H; simpl;
    try congruence; auto.
Qed.

Lemma update_twice (h : Store.store) (l : Store.loc) (a b : Store.array) :
  Store.update (Store.update h l a) l b = Store.update h l b.
Proof.
  revert l; induction h as [|x h IH]; intros [|l]; simpl; auto.
  now rewrite IH.
Qed.

Lemma update_id (h : Store.store) (l : Store.loc) (a : Store.array) :
  nth_error h l = Some a -> Store.update h l a = h.
Proof.
  revert l; induction h as [|x h IH]; intros [|l] H; simpl in *;
    try discriminate.
  - congruence.
  - now rewrite IH.
Qed.

Lemma update_last (h : Store.store) (a b : Store.array) :
  Store.update (h ++ [a]) (length h) b = h ++ [b].
Proof.
  induction h as [|x h IH]; simpl; [reflexivity|]. now rewrite IH.
Qed.

(** The loop over the store does what the loop on values does, and
    touches the location of [U] only. *)
Lemma code_loop_st_run (ldata lomegas lU : Store.loc)
    (data omegas : list (list R)) (idx : list nat) :
  lU <> ldata -> lU <> lomegas ->
  forall (h : Store.store) (U : list (list R)),
    nth_error h ldata = Some data ->
    nth_error h lomegas = Some omegas ->
    nth_error h lU = Some U ->
    code_loop_st ldata lomegas lU idx h
    = match code_loop data omegas U idx with
      | Ok U' => Ok (tt, Store.update h lU U')
      | Raise e => Raise e
      end.
Proof.
  intros Hd Ho. induction idx as [|i idx IH]; intros h U Hdata Homegas HU.
  - simpl. unfold Store.ret. now rewrite (update_id _ _ HU).
  - simpl. unfold code_step_st, code_step, Store.mbind, Store.load, Store.lift.
    rewrite Homegas.
    destruct (Np.getitem omegas i) as [omegai | e]; simpl; [|reflexivity].
    rewrite Hdata, HU. unfold Store.put. rewrite HU.
    rewrite (IH _ (NpR.set_column U i (map (eigen_row omegai) data))).
    + destruct (code_loop data omegas _ idx); [|reflexivity].
      now rewrite update_twice.
    + rewrite update_other by exact Hd. exact Hdata.
    + rewrite update_other by exact Ho. exact Homegas.
    + eapply update_same. exact HU.
Qed.

(** One call of [generate_code] on the store: it returns what the
    function on values returns, in a new array, and leaves every array
    that existed before the call as it was. *)
Lemma generate_code_st_run (h : Store.store) (data mn rng modes : Store.loc)
    (code_length : nat) (pca : PCA) (d mnv r md : Store.array) :
  nth_error h data = Some d ->
  nth_error h mn = Some mnv ->
  nth_error h rng = Some r ->
  nth_error h modes = Some md ->
  match generate_code d code_length pca (row_of mnv) (row_of r) md with
  | Ok code =>
      exists tmp,
        generate_code_st data code_length pca mn rng modes h
        = Ok (length (h ++ tmp), (h ++ tmp) ++ [code])
  | Raise e =>
      generate_code_st data code_length pca mn rng modes h = Raise e
  end.
Proof.
  intros Hdata Hmn Hrng Hmodes.
  unfold generate_code_st, generate_code, Store.mbind, Store.load, Store.alloc.
  rewrite Hdata, Hmn.
  set (A1 := shifted pca (row_of mnv) d).
  rewrite (nth_error_old _ _ _ Hrng).
  set (A2 := [omega0 (row_of r)]).
  rewrite (nth_error_old _ _ _ (nth_error_old _ _ _ Hmodes)).
  rewrite nth_error_new.
  change (row_of A2) with (omega0 (row_of r)).
  set (A3 := map (omega_row (omega0 (row_of r))) md).
  rewrite (nth_error_old _ _ _ (nth_error_old _ _ _ (nth_error_new h A1))).
  match goal with
  | |- context [code_loop_st ?a ?b ?c _ ?hh] =>
      set (lU := c); set (lomegas := b); set (h4 := hh)
  end.
  assert (HU : nth_error h4 lU = Some (zeros (length A1) code_length))
    by apply nth_error_new.
  assert (HA1 : nth_error h4 (length h) = Some A1)
    by (unfold h4; do 3 apply nth_error_old; apply nth_error_new).
  assert (HA3 : nth_error h4 lomegas = Some A3)
    by (unfold h4; apply nth_error_old; apply nth_error_new).
  assert (Hne1 : lU <> length h)
    by (unfold lU; rewrite !length_app; simpl; lia).
  assert (Hne2 : lU <> lomegas)
    by (unfold lU, lomegas; rewrite !length_app; simpl; lia).
  rewrite (@code_loop_st_run (length h) lomegas lU A1 A3
             (seq 0 code_length) Hne1 Hne2 h4 _ HA1 HA3 HU).
  unfold omegas_of. fold A3.
  destruct (code_loop A1 A3 (zeros (length A1) code_length)
              (seq 0 code_length)) as [U' | e]; simpl; [|reflexivity].
  rewrite (update_same _ _ _ HU).
  unfold h4. rewrite update_last.
  exists [A1; A2; A3; U'].
  f_equal. f_equal.
  - rewrite !length_app. simpl. lia.
  - rewrite <- !app_assoc. reflexivity.
Qed.

(** C7. For fitted arguments held in a store, a call of [generate_code]
    succeeds, and a second call on the same arguments, made on the store
    the first has left, returns an array with the same contents: the
    first call writes only into arrays it has allocated itself, so that
    the second reads the arrays [data], [mn], [R] and [modes]
    unchanged. *)
Theorem generate_code_deterministic (h : Store.store)
    (data mn rng modes : Store.loc) (code_length : nat) (pca : PCA)
    (d mnv r md : Store.array) :
  nth_error h data = Some d ->
  nth_error h mn = Some mnv ->
  nth_error h rng = Some r ->
  nth_error h modes = Some md ->
  fitted code_length pca (row_of mnv) (row_of r) md ->
  data_of pca d ->
  exists o1 h1 o2 h2 code,
    generate_code_st data code_length pca mn rng modes h = Ok (o1, h1)
    /\ generate_code_st data code_length pca mn rng modes h1 = Ok (o2, h2)
    /\ nth_error h1 o1 = Some code
    /\ nth_error h2 o2 = Some code
    /\ generate_code d code_length pca (row_of mnv) (row_of r) md = Ok code
    /\ nth_error h1 data = Some d /\ nth_error h1 mn = Some mnv
    /\ nth_error h1 rng = Some r /\ nth_error h1 modes = Some md.
Proof.
  intros Hdata Hmn Hrng Hmodes [_ [_ [_ [_ [_ [Hmd _]]]]]] _.
  pose proof (@generate_code_st_run h data mn rng modes code_length pca
                d mnv r md Hdata Hmn Hrng Hmodes) as Hrun.
  destruct (generate_code d code_length pca (row_of mnv) (row_of r) md)
    as [code | e] eqn:Hpure.
  2: { rewrite generate_code_rows in Hpure by lia. discriminate. }
  destruct Hrun as [tmp Hrun].
  assert (Hd' : nth_error ((h ++ tmp) ++ [code]) data = Some d)
    by (do 2 apply nth_error_old; exact Hdata).
  assert (Hmn' : nth_error ((h ++ tmp) ++ [code]) mn = Some mnv)
    by (do 2 apply nth_error_old; exact Hmn).
  assert (Hrng' : nth_error ((h ++ tmp) ++ [code]) rng = Some r)
    by (do 2 apply nth_error_old; exact Hrng).
  assert (Hmodes' : nth_error ((h ++ tmp) ++ [code]) modes = Some md)
    by (do 2 apply nth_error_old; exact Hmodes).
  pose proof (@generate_code_st_run ((h ++ tmp) ++ [code]) data mn rng
                modes code_length pca d mnv r md Hd' Hmn' Hrng' Hmodes')
    as Hrun2.
  rewrite Hpure in Hrun2. destruct Hrun2 as [tmp2 Hrun2].
  eexists _, _, _, _, code. split; [exact Hrun|]. split; [exact Hrun2|].
  repeat split; auto using nth_error_new.
Qed.

Lemma generate_code_deterministic_witness :
  exists o1 h1,
    generate_code_st 0%nat 1 {| mean_ := [0]; components_ := [[1]] |}
      1%nat 2%nat 3%nat [[[0]]; [[0]]; [[1]]; [[1]]] = Ok (o1, h1).
Proof.
  destruct (@generate_code_deterministic [[[0]]; [[0]]; [[1]]; [[1]]]
              0%nat 1%nat 2%nat 3%nat 1
              {| mean_ := [0]; components_ := [[1]] |}
              [[0]] [[0]] [[1]] [[1]] eq_refl eq_refl eq_refl eq_refl
              ltac:(unfold fitted; simpl; repeat split;
                    repeat constructor; lra)
              ltac:(repeat constructor))
    as [o1 [h1 [_ [_ [_ [H1 _]]]]]].
  exists o1, h1. exact H1.
Defined.

(** ** The bounds *)

Lemma fold_left_Rmin_le (xs : list R) (x : R) :
  fold_left Rmin xs x <= x
  /\ Forall (fun y => fold_left Rmin xs x <= y) xs.
Proof.
  revert x; induction xs as [|y xs IH]; intros x; simpl.
  - split; [lra | constructor].
  - destruct (IH (Rmin x y)) as [H1 H2]. split.
    + pose proof (Rmin_l x y). lra.
    + constructor; [|exact H2]. pose proof (Rmin_r x y). lra.
Qed.

Lemma amin_spec (xs : list R) :
  xs <> [] ->
  exists m, NpR.amin xs = Ok m /\ Forall (fun y => m <= y) xs.
Proof.
  destruct xs as [|x xs]; [congruence|]. intros _.
  exists (fold_left Rmin xs x). simpl. split; [reflexivity|].
  destruct (fold_left_Rmin_le xs x). now constructor.
Qed.

Lemma mapM_seq_spec (f : nat -> result R) (P : nat -> R -> Prop) (n : nat) :
  (forall j, (j < n)%nat -> exists y, f j = Ok y /\ P j y) ->
  exists ys, NpR.mapM f (seq 0 n) = Ok ys /\ length ys = n
             /\ forall j, (j < n)%nat -> P j (nth j ys 0).
Proof.
  assert (G : forall cnt s,
             (forall j, (s <= j < s + cnt)%nat -> exists y, f j = Ok y /\ P j y) ->
             exists ys, NpR.mapM f (seq s cnt) = Ok ys /\ length ys = cnt
                        /\ forall j, (j < cnt)%nat -> P (s + j)%nat (nth j ys 0)).
  { induction cnt as [|cnt IH]; intros s H; simpl.
    - exists []. repeat split; auto. intros; lia.
    - destruct (H s ltac:(lia)) as [y [Hy HP]].
      destruct (IH (S s) ltac:(intros; apply H; lia)) as [ys [Hys [Hl Hn]]].
      exists (y :: ys). rewrite Hy. simpl. rewrite Hys. simpl.
      repeat split; [now rewrite Hl|].
      intros [|j] Hj; simpl.
      + now rewrite Nat.add_0_r.
      + rewrite <- Nat.add_succ_comm. apply Hn. lia. }
  intros H. destruct (G n 0%nat ltac:(intros; apply H; lia))
    as [ys [Hys [Hl Hn]]].
  exists ys. repeat split; auto.
Qed.

Lemma column_In (j : nat) (X : list (list R)) (row : list R) :
  In row X -> In (nth j row 0) (NpR.column j X).
Proof.
  intros H. unfold NpR.column.
  exact (in_map (fun r => nth j r 0) X row H).
Qed.

Lemma eps_pos : 0 < eps.
Proof. unfold eps. apply Rinv_0_lt_compat, pow_lt. lra. Qed.

(** What the padding of lines 39-44 is for, in exact arithmetic: with
    the bounds at the column minimum minus eps and the column maximum plus
    eps, every range is at least [2 * eps], hence strictly positive and a
    valid divisor of pi, and every value of the projected training data
    lies strictly between [mn] and [mx] -- also in a dimension that is
    constant over the training set. *)
Theorem bounds_padded (code_length : nat) (X : list (list R)) :
  X <> [] ->
  Forall (fun row => length row = code_length) X ->
  exists mn mx,
    fit_uniform code_length X = Ok (mn, mx) /\
    length mn = code_length /\ length mx = code_length /\
    forall j, (j < code_length)%nat ->
      (forall row, In row X ->
         nth j mn 0 < nth j row 0 < nth j mx 0
         /\ nth j mn 0 + eps <= nth j row 0 <= nth j mx 0 - eps) /\
      2 * eps <= nth j (ranges mn mx) 0 /\
      0 < nth j (ranges mn mx) 0 /\
      nth j (ranges mn mx) 0 <> 0 /\
      nth j (omega0 (ranges mn mx)) 0 * nth j (ranges mn mx) 0 = PI.
Proof.
  intros Hne _.
  assert (Hcol : forall j, NpR.column j X <> []).
  { intros j. unfold NpR.column. destruct X; [congruence | discriminate]. }
  destruct (@mapM_seq_spec (fun j => NpR.amin (NpR.column j X))
              (fun j m => Forall (fun y => m <= y) (NpR.column j X))
              code_length) as [lo [Hlo [Hllo Hlo_le]]].
  { intros j _. apply amin_spec, Hcol. }
  destruct (@mapM_seq_spec (fun j => NpR.amax (NpR.column j X))
              (fun j m => Forall (fun y => y <= m) (NpR.column j X))
              code_length) as [hi [Hhi [Hlhi Hhi_le]]].
  { intros j _. destruct (amax_spec (Hcol j)) as [m [Hm [_ Hle]]]. eauto. }
  exists (map (fun x => x - eps) lo), (map (fun x => x + eps) hi).
  assert (Hmn : forall j, (j < code_length)%nat ->
             nth j (map (fun x => x - eps) lo) 0 = nth j lo 0 - eps)
    by (intros;
        apply (@nth_map_in _ _ (fun x => x - eps) lo 0 0); lia).
  assert (Hmx : forall j, (j < code_length)%nat ->
             nth j (map (fun x => x + eps) hi) 0 = nth j hi 0 + eps)
    by (intros;
        apply (@nth_map_in _ _ (fun x => x + eps) hi 0 0); lia).
  split; [|split; [|split]].
  - unfold fit_uniform, NpR.min0, NpR.max0. rewrite Hlo, Hhi. reflexivity.
  - now rewrite length_map.
  - now rewrite length_map.
  - intros j Hj. pose proof eps_pos as He.
    assert (Hin : forall row, In row X ->
               nth j lo 0 <= nth j row 0 <= nth j hi 0).
    { intros row Hrow. specialize (Hlo_le j Hj). specialize (Hhi_le j Hj).
      rewrite Forall_forall in Hlo_le, Hhi_le.
      split; [apply Hlo_le | apply Hhi_le]; now apply column_In. }
    assert (Hr : nth j (ranges (map (fun x => x - eps) lo)
                               (map (fun x => x + eps) hi)) 0
                 = nth j hi 0 + eps - (nth j lo 0 - eps)).
    { unfold ranges. rewrite zip_with_nth by (rewrite length_map; lia).
      now rewrite Hmn, Hmx. }
    assert (Hlohi : nth j lo 0 <= nth j hi 0).
    { destruct X as [|row X']; [congruence|].
      destruct (Hin row (or_introl eq_refl)). lra. }
    split; [|split; [|split; [|split]]].
    + intros row Hrow. rewrite Hmn, Hmx by exact Hj.
      destruct (Hin row Hrow). lra.
    + rewrite Hr. lra.
    + rewrite Hr. lra.
    + rewrite Hr. lra.
    + rewrite nth_omega0
        by (unfold ranges; rewrite zip_with_length, !length_map; lia).
      field. rewrite Hr. lra.
Qed.

Lemma bounds_padded_witness :
  exists mn mx, fit_uniform 1 [[3]; [3]] = Ok (mn, mx)
                /\ 0 < nth 0 (ranges mn mx) 0.
Proof.
  destruct (@bounds_padded 1 [[3]; [3]] ltac:(discriminate)
              ltac:(repeat constructor))
    as [mn [mx [Hf [_ [_ H]]]]].
  exists mn, mx. split; [exact Hf|].
  destruct (H 0%nat ltac:(lia)) as [_ [_ [Hpos _]]]. exact Hpos.
Defined.

(** C9. The code does not keep the projected training values strictly
    inside the bounds.  In binary64, in which lines 40-41 are computed, a
    column with the values -5 and 5 gets the bounds it already had:
    [-5.0 - eps] rounds to [-5.0] and [5.0 + eps] to [5.0], so the
    padding is lost and both training values lie on the bounds, neither
    strictly inside.  (The range, 10, is strictly positive.) *)
Lemma padding_absorbed_binary64 :
  Float64.fit_column [(-5)%float; 5%float] = Ok ((-5)%float, 5%float)
  /\ PrimFloat.ltb (-5)%float (-5)%float = false
  /\ PrimFloat.ltb 5%float 5%float = false
  /\ Float64.range_of ((-5)%float, 5%float) = 10%float.
Proof. repeat split; vm_compute; reflexivity. Qed.

(** A column that is constantly 0, as a constant projection of centred
    data is, does get a strictly positive range in binary64. *)
Example padding_of_zero_column_binary64 :
  Float64.fit_column [0%float; 0%float]
  = Ok (PrimFloat.opp Float64.eps, Float64.eps)
  /\ PrimFloat.ltb 0%float
       (Float64.range_of (PrimFloat.opp Float64.eps, Float64.eps)) = true.
Proof. split; vm_compute; reflexivity. Qed.

(** ** No check on the number of candidates *)

(** A table with fewer than [code_length] rows makes [generate_code]
    fail at [omegas[i, :]] with the first missing row. *)
Lemma code_loop_short (data omegas : list (list R)) (c : nat) :
  forall cnt i,
    (i + cnt = c)%nat -> (i <= length omegas < c)%nat ->
    code_loop data omegas (partial_codes data omegas c i) (seq i cnt)
    = Raise IndexError.
Proof.
  induction cnt as [|cnt IH]; intros i Hi Hn; [lia|]. simpl.
  destruct (Nat.eq_dec i (length omegas)) as [-> | Hne].
  - unfold code_step, Np.getitem.
    now rewrite (proj2 (nth_error_None omegas (length omegas)) (le_n _)).
  - rewrite code_step_partial by lia. simpl. apply IH; lia.
Qed.

Lemma generate_code_short_table (data : list (list R)) (code_length : nat)
    (pca : PCA) (mn rng : list R) (modes : list (list R)) :
  (length modes < code_length)%nat ->
  generate_code data code_length pca mn rng modes = Raise IndexError.
Proof.
  intros Hlt. unfold generate_code.
  assert (Hz : zeros (length (shifted pca mn data)) code_length
               = partial_codes (shifted pca mn data) (omegas_of rng modes)
                   code_length 0).
  { unfold zeros, partial_codes. simpl. rewrite Nat.sub_0_r.
    generalize (shifted pca mn data) as d.
    induction d as [|v d IH]; simpl; [reflexivity|]. now rewrite IH. }
  rewrite Hz, code_loop_short; [reflexivity | lia |].
  unfold omegas_of. rewrite length_map. lia.
Qed.

Lemma Rmax_0_1 : Rmax 0 1 = 1.
Proof. apply Rmax_right. lra. Qed.

Lemma max_mode_0_1 : max_mode 2 [0; 1] = Ok [0; 3]%Z.
Proof.
  unfold max_mode. simpl. rewrite Rmax_0_1. simpl. repeat f_equal.
  - apply Zceil_eq. simpl. lra.
  - apply Zceil_eq. simpl. lra.
Qed.

Lemma argsort_length (sort_indices : list R -> list nat) (keys : list R) :
  Permutation (sort_indices keys) (seq 0 (length keys)) ->
  length (sort_indices keys) = length keys.
Proof.
  intros H. apply Permutation_length in H. now rewrite length_seq in H.
Qed.

Lemma select_rows_length (modes : list (list Z)) (ii : list nat)
    (code_length : nat) :
  length ii = length modes ->
  length (select_rows modes ii code_length)
  = Nat.min code_length (length modes - 1).
Proof.
  intros H. unfold select_rows.
  now rewrite length_map, length_firstn, length_skipn, H.
Qed.

(** With the ranges [0; 1] and code length 2, two candidates are
    enumerated, fewer than [L + 1 = 3]; lines 57-58 raise nothing and
    return a table of one row. *)
Lemma no_insufficient_modes_error :
  max_mode 2 [0; 1] = Ok [0; 3]%Z
  /\ enumerate_modes 2 [0; 3]%Z = Ok [[0; 1]; [0; 2]]%Z
  /\ (length [[0; 1]; [0; 2]]%Z < 2 + 1)%nat
  /\ exists table,
       train_modes argsort 2 [0; 1] = Ok table /\ length table = 1%nat.
Proof.
  split; [exact max_mode_0_1|]. split; [reflexivity|]. split; [simpl; lia|].
  unfold train_modes. rewrite max_mode_0_1.
  change (enumerate_modes 2 [0; 3]%Z) with (Ok [[0; 1]; [0; 2]]%Z).
  cbn [bind]. eexists. split; [reflexivity|].
  rewrite select_rows_length; [reflexivity|].
  rewrite argsort_length by apply argsort_ok.
  now rewrite sort_keys_length.
Qed.

(** The failure surfaces in [generate_code], which indexes the second
    row of that one-row table. *)
Example short_table_index_error (data : list (list R)) (pca : PCA)
    (mn : list R) (row : list R) :
  generate_code data 2 pca mn [0; 1] [row] = Raise IndexError.
Proof. apply generate_code_short_table. simpl. lia. Qed.

(** C5 (as amended). Lines 45-58 contain no check on the number of
    candidates: whenever the enumeration itself succeeds with [n] rows,
    the selection [ii[1 : L + 1]] returns [min(L, n - 1)] rows and raises
    nothing, whatever permutation [argsort] returns; with fewer than
    [L + 1] candidates the table has [n - 1] rows. *)
Theorem selection_never_raises (sort_indices : list R -> list nat)
    (code_length : nat) (rng : list R) (mm : list Z)
    (cands : list (list Z)) :
  (forall keys, Permutation (sort_indices keys) (seq 0 (length keys))) ->
  length rng = code_length ->
  max_mode code_length rng = Ok mm ->
  enumerate_modes code_length mm = Ok cands ->
  exists table,
    train_modes sort_indices code_length rng = Ok table
    /\ length table = Nat.min code_length (length cands - 1)
    /\ ((length cands < code_length + 1)%nat ->
        length table = (length cands - 1)%nat).
Proof.
  intros Hsort _ Hmm Hen. unfold train_modes. rewrite Hmm. cbn [bind].
  rewrite Hen. cbn [bind]. eexists. split; [reflexivity|].
  assert (Hl : length (select_rows cands
                         (sort_indices (sort_keys rng cands)) code_length)
               = Nat.min code_length (length cands - 1)).
  { apply select_rows_length. rewrite argsort_length by apply Hsort.
    apply sort_keys_length. }
  split; [exact Hl|]. intros Hlt. rewrite Hl. lia.
Qed.

Lemma selection_never_raises_witness :
  exists table,
    train_modes argsort 2 [0; 1] = Ok table
    /\ length table = Nat.min 2 (length [[0; 1]; [0; 2]]%Z - 1).
Proof.
  destruct (@selection_never_raises argsort 2 [0; 1] [0; 3]%Z
              [[0; 1]; [0; 2]]%Z (fun keys => proj1 (argsort_ok keys))
              eq_refl max_mode_0_1 eq_refl)
    as [table [Ht [Hl _]]].
  exists table. split; [exact Ht | exact Hl].
Defined.

(** * Further properties of the mode table *)

Lemma sorted_app_le (keys : list R) (l1 l2 : list nat) :
  StronglySorted Rle (map (fun i => nth i keys 0) (l1 ++ l2)) ->
  forall i j, In i l1 -> In j l2 -> nth i keys 0 <= nth j keys 0.
Proof.
  induction l1 as [|a l1 IH]; intros Hs i j Hi Hj; [contradiction|].
  simpl in Hs. inversion Hs as [|? ? Hs' Hall]; subst.
  destruct Hi as [-> | Hi]; [|now apply IH].
  rewrite Forall_forall in Hall. apply Hall.
  apply in_map_iff. exists j. split; [reflexivity|].
  apply in_or_app. now right.
Qed.

Lemma NoDup_map_inj_in (A B : Type) (f : A -> B) (l : list A) :
  (forall x y, In x l -> In y l -> f x = f y -> x = y) ->
  NoDup l -> NoDup (map f l).
Proof.
  intros Hinj Hl. induction Hl as [|x l Hx Hl IH]; simpl; constructor.
  - intros Hin. apply in_map_iff in Hin. destruct Hin as [y [Hy Hin]].
    assert (y = x) by (apply Hinj; simpl; auto). subst. contradiction.
  - apply IH. intros; apply Hinj; simpl; auto.
Qed.

Lemma NoDup_concat_map (A : Type) (F : nat -> list A) (idx : list nat) :
  NoDup idx ->
  (forall i, In i idx -> NoDup (F i)) ->
  (forall i j a, In i idx -> In j idx -> i <> j ->
                 In a (F i) -> ~ In a (F j)) ->
  NoDup (concat (map F idx)).
Proof.
  intros Hnd. induction Hnd as [|i idx Hi Hnd IH]; intros HF Hdis; simpl.
  - constructor.
  - apply NoDup_app.
    + apply HF. now left.
    + apply IH.
      * intros j Hj. apply HF. now right.
      * intros j k a Hj Hk Hjk Ha. apply (Hdis j k a); simpl; auto.
    + intros a Ha Hin. apply in_concat in Hin.
      destruct Hin as [l [Hl Hal]]. apply in_map_iff in Hl.
      destruct Hl as [j [<- Hj]].
      apply (Hdis i j a); simpl; auto. congruence.
Qed.

Lemma arange_NoDup (a b : Z) : NoDup (Np.arange a b).
Proof.
  unfold Np.arange. apply NoDup_map_inj_in; [|apply seq_NoDup].
  intros x y _ _ H. lia.
Qed.

(** The candidate rows are pairwise distinct. *)
Lemma candidates_NoDup (c : nat) (max_mode : list Z) :
  NoDup (candidates_spec c max_mode).
Proof.
  unfold candidates_spec. constructor.
  - intros Hin.
    destruct (candidates_tail_axis c max_mode _ Hin)
      as [i [k [Hi [Hk Heq]]]].
    symmetry in Heq. revert Heq. apply axis_row_not_zero; lia.
  - apply NoDup_concat_map; [apply seq_NoDup| |].
    + intros i Hi. apply in_seq in Hi. unfold axis_rows.
      apply NoDup_map_inj_in; [|apply arange_NoDup].
      intros x y _ _ H.
      rewrite <- (@axis_row_nth_eq c i x), <- (@axis_row_nth_eq c i y), H
        by lia.
      reflexivity.
    + intros i j a Hi Hj Hne Ha Hb. apply in_seq in Hi. apply in_seq in Hj.
      unfold axis_rows in Ha, Hb.
      apply in_map_iff in Ha. destruct Ha as [x [<- Hx]].
      apply in_map_iff in Hb. destruct Hb as [y [Hy Hyin]].
      apply arange_In in Hx. apply arange_In in Hyin.
      assert (E : nth i (axis_row c j y) 0%Z = nth i (axis_row c i x) 0%Z)
        by now rewrite Hy.
      rewrite axis_row_nth_eq in E by lia.
      rewrite axis_row_nth_neq in E by congruence. lia.
Qed.

(** Everything lines 45-58 establish for strictly positive ranges, in
    one place. *)
Lemma table_structure (sort_indices : list R -> list nat)
    (code_length : nat) (rng : list R) :
  (forall keys, is_argsort keys (sort_indices keys)) ->
  (1 <= code_length)%nat ->
  length rng = code_length ->
  Forall (fun r => 0 < r) rng ->
  exists rmax mm rest,
    NpR.amax rng = Ok rmax /\ 0 < rmax /\
    In rmax rng /\ Forall (fun r => r <= rmax) rng /\
    max_mode code_length rng = Ok mm /\
    mm = map (fun r => Zceil (IZR (Z.of_nat code_length + 1) * r / rmax))
             rng /\
    length mm = code_length /\
    Forall (fun x => (1 <= x <= Z.of_nat code_length + 1)%Z) mm /\
    enumerate_modes code_length mm = Ok (candidates_spec code_length mm) /\
    Permutation rest
      (seq 1 (length (candidates_spec code_length mm) - 1)) /\
    (code_length <= length rest)%nat /\
    StronglySorted Rle
      (map (fun i => nth i (sort_keys rng (candidates_spec code_length mm)) 0)
           rest) /\
    train_modes sort_indices code_length rng
    = Ok (map (fun i => nth i (candidates_spec code_length mm) [])
              (firstn code_length rest)).
Proof.
  intros Hsort HL Hlen Hpos.
  assert (Hne : rng <> []) by (destruct rng; simpl in *; [lia | congruence]).
  destruct (max_mode_spec code_length Hne Hpos)
    as [rmax [mm [Ha [Hr [Hmm [Hdef [Hl [Hall Hin]]]]]]]].
  destruct (amax_spec Hne) as [rmax' [Ha' [Hinr Hle]]].
  assert (rmax' = rmax) by congruence. subst rmax'.
  destruct (@train_modes_selected sort_indices Hsort code_length rng
              HL Hlen Hpos)
    as [mm' [rest [Hmm' [Hlmm [Hen [Hii [Hperm [Hrest [Hs Ht]]]]]]]]].
  assert (mm' = mm) by congruence. subst mm'.
  exists rmax, mm, rest. repeat split; auto.
Qed.

Lemma table_row_index (code_length : nat) (mm : list Z) (rest : list nat)
    (row : list Z) :
  In row (map (fun i => nth i (candidates_spec code_length mm) [])
              (firstn code_length rest)) ->
  exists i, In i (firstn code_length rest)
            /\ row = nth i (candidates_spec code_length mm) [].
Proof.
  intros H. apply in_map_iff in H. destruct H as [i [<- Hi]]. eauto.
Qed.

(** An index of the sorted tail that is not among the first
    [code_length] carries a key no smaller than any that is. *)
Lemma unselected_key_ge (keys : list R) (rest : list nat) (c n i j : nat) :
  Permutation rest (seq 1 (n - 1)) ->
  StronglySorted Rle (map (fun i => nth i keys 0) rest) ->
  In i (firstn c rest) -> (1 <= j < n)%nat -> ~ In j (firstn c rest) ->
  nth i keys 0 <= nth j keys 0.
Proof.
  intros Hperm Hs Hi Hj Hout.
  assert (Hjrest : In j rest).
  { eapply Permutation_in; [symmetry; exact Hperm|]. apply in_seq. lia. }
  rewrite <- (firstn_skipn c rest) in Hjrest, Hs.
  apply in_app_or in Hjrest. destruct Hjrest as [Hjin | Hjout];
    [contradiction|].
  exact (@sorted_app_le keys _ _ Hs i j Hi Hjout).
Qed.

Lemma axis_row_inj (c i j : nat) (k l : Z) :
  (i < c)%nat -> (j < c)%nat -> (1 <= k)%Z ->
  axis_row c i k = axis_row c j l -> i = j /\ k = l.
Proof.
  intros Hi Hj Hk H.
  assert (E : nth i (axis_row c i k) 0%Z = nth i (axis_row c j l) 0%Z)
    by now rewrite H.
  rewrite axis_row_nth_eq in E by exact Hi.
  destruct (Nat.eq_dec j i) as [-> | Hne].
  - rewrite axis_row_nth_eq in E by exact Hi. auto.
  - rewrite axis_row_nth_neq in E by exact Hne. lia.
Qed.

Lemma abs_eig_axis (rng : list R) (c d : nat) (k : Z) :
  length rng = c -> (d < c)%nat ->
  Rabs (eig_val (omega0 rng) (map IZR (axis_row c d k)))
  = (IZR k * (PI / nth d rng 0)) ^ 2.
Proof.
  intros Hlen Hd.
  rewrite Rabs_left1 by apply eig_val_nonpos.
  rewrite eig_val_axis by (unfold omega0; rewrite ?length_map; lia).
  rewrite nth_omega0 by lia. ring.
Qed.

(** X2. The rows of the table are pairwise distinct: no two bits of the
    code are computed from the same eigenfunction. *)
Theorem table_rows_distinct (sort_indices : list R -> list nat)
    (code_length : nat) (rng : list R) :
  (forall keys, is_argsort keys (sort_indices keys)) ->
  (1 <= code_length)%nat ->
  length rng = code_length ->
  Forall (fun r => 0 < r) rng ->
  exists table,
    train_modes sort_indices code_length rng = Ok table /\ NoDup table.
Proof.
  intros Hsort HL Hlen Hpos.
  destruct (@table_structure sort_indices code_length rng Hsort HL Hlen
              Hpos)
    as [rmax [mm [rest [_ [_ [_ [_ [Hmm [_ [_ [_ [Hen [Hperm [Hrest
        [Hs Ht]]]]]]]]]]]]]]].
  eexists. split; [exact Ht|].
  assert (Hnd : NoDup rest)
    by (eapply Permutation_NoDup; [symmetry; exact Hperm | apply seq_NoDup]).
  rewrite <- (firstn_skipn code_length rest) in Hnd.
  apply NoDup_app_remove_r in Hnd.
  apply NoDup_map_inj_in; [|exact Hnd].
  intros i j Hi Hj Heq.
  destruct (@selected_index_tail code_length mm rest i Hperm Hi) as [Hir _].
  destruct (@selected_index_tail code_length mm rest j Hperm Hj) as [Hjr _].
  pose proof (candidates_NoDup code_length mm) as Hc.
  rewrite (NoDup_nth _ []) in Hc. apply Hc; auto; lia.
Qed.

Lemma table_rows_distinct_witness :
  train_modes argsort 2 [4; 1] = Ok [[1; 0]; [2; 0]]%Z
  /\ NoDup [[1; 0]; [2; 0]]%Z.
Proof.
  destruct (@table_rows_distinct argsort 2 [4; 1] argsort_ok ltac:(lia)
              eq_refl ltac:(repeat constructor; lra))
    as [table [Ht Hnd]].
  rewrite (@train_modes_4_1 argsort argsort_ok) in Ht. injection Ht as <-.
  split; [exact (@train_modes_4_1 argsort argsort_ok) | exact Hnd].
Defined.

(** X3. Along every dimension the selected mode indices form an initial
    segment: when the harmonic [k] of dimension [d] is in the table, so
    is every harmonic [1 .. k - 1] of that dimension. *)
Theorem table_modes_initial_segment (sort_indices : list R -> list nat)
    (code_length : nat) (rng : list R) :
  (forall keys, is_argsort keys (sort_indices keys)) ->
  (1 <= code_length)%nat ->
  length rng = code_length ->
  Forall (fun r => 0 < r) rng ->
  exists table,
    train_modes sort_indices code_length rng = Ok table /\
    forall d k k',
      (d < code_length)%nat -> (1 <= k' <= k)%Z ->
      In (axis_row code_length d k) table ->
      In (axis_row code_length d k') table.
Proof.
  intros Hsort HL Hlen Hpos.
  destruct (@table_structure sort_indices code_length rng Hsort HL Hlen
              Hpos)
    as [rmax [mm [rest [_ [_ [_ [_ [Hmm [_ [_ [_ [Hen [Hperm [Hrest
        [Hs Ht]]]]]]]]]]]]]]].
  eexists. split; [exact Ht|].
  intros d k k' Hd Hk Hin.
  destruct (Z.eq_dec k' k) as [-> | Hne]; [exact Hin|].
  destruct (@table_row_index code_length mm rest _ Hin) as [i [Hi Hrow]].
  destruct (@selected_index_tail code_length mm rest i Hperm Hi)
    as [Hir Htl].
  destruct (candidates_tail_axis _ _ _ Htl) as [d0 [k0 [Hd0 [Hk0 Hax]]]].
  rewrite <- Hrow in Hax.
  destruct (@axis_row_inj code_length d d0 k k0 Hd Hd0 ltac:(lia) Hax)
    as [<- <-].
  assert (Hcand : In (axis_row code_length d k')
                     (candidates_spec code_length mm)).
  { apply candidates_spec_In. right. exists d, k'. repeat split; lia. }
  destruct (In_nth _ _ [] Hcand) as [j [Hj Hnth]].
  assert (Hj1 : (1 <= j)%nat).
  { destruct j; [|lia]. exfalso.
    change (nth 0 (candidates_spec code_length mm) [])
      with (repeat 0%Z code_length) in Hnth.
    symmetry in Hnth. revert Hnth. apply axis_row_not_zero; lia. }
  destruct (in_dec Nat.eq_dec j (firstn code_length rest)) as [Hsel | Hout].
  { apply in_map_iff. exists j. split; auto. }
  exfalso.
  pose proof (@unselected_key_ge
                (sort_keys rng (candidates_spec code_length mm)) rest
                code_length (length (candidates_spec code_length mm)) i j
                Hperm Hs Hi ltac:(lia) Hout) as Hle.
  rewrite <- !abs_eig_is_key in Hle by lia.
  rewrite <- Hrow, Hnth in Hle.
  rewrite !abs_eig_axis in Hle by assumption.
  assert (Hr : 0 < nth d rng 0).
  { rewrite Forall_forall in Hpos. apply Hpos, nth_In. lia. }
  assert (Hw : 0 < PI / nth d rng 0)
    by (apply Rdiv_lt_0_compat; [apply PI_RGT_0 | exact Hr]).
  assert (Hk1 : 1 <= IZR k') by (apply IZR_le; lia).
  assert (Hk2 : IZR k' + 1 <= IZR k)
    by (rewrite <- plus_IZR; apply IZR_le; lia).
  set (w := PI / nth d rng 0) in *.
  assert (Ha : 0 < IZR k' * w) by nra.
  assert (Hab : IZR k' * w < IZR k * w) by nra.
  assert (Hsq : (IZR k' * w) * (IZR k' * w) < (IZR k * w) * (IZR k * w))
    by nra.
  simpl in Hle. lra.
Qed.

Lemma table_modes_initial_segment_witness :
  train_modes argsort 2 [4; 1] = Ok [[1; 0]; [2; 0]]%Z
  /\ In (axis_row 2 0 2) [[1; 0]; [2; 0]]%Z
  /\ In (axis_row 2 0 1) [[1; 0]; [2; 0]]%Z.
Proof.
  destruct (@table_modes_initial_segment argsort 2 [4; 1] argsort_ok
              ltac:(lia) eq_refl ltac:(repeat constructor; lra))
    as [table [Ht Hseg]].
  rewrite (@train_modes_4_1 argsort argsort_ok) in Ht. injection Ht as <-.
  assert (H2 : In (axis_row 2 0 2) [[1; 0]; [2; 0]]%Z)
    by (right; left; reflexivity).
  split; [exact (@train_modes_4_1 argsort argsort_ok)|].
  split; [exact H2|].
  exact (Hseg 0%nat 2%Z 1%Z ltac:(lia) ltac:(lia) H2).
Defined.

Lemma set_nth_bounded (i : nat) (k b : Z) (row : list Z) :
  (0 <= k <= b)%Z -> Forall (fun x => (0 <= x <= b)%Z) row ->
  Forall (fun x => (0 <= x <= b)%Z) (Np.set_nth i k row).
Proof.
  intros Hk H. revert i; induction H as [|x row Hx Hrow IH]; intros [|i];
    simpl; auto.
Qed.

(** X4. No mode index in the table exceeds the code length: every entry
    of every selected row lies between 0 and [code_length]. *)
Theorem table_entries_bounded (sort_indices : list R -> list nat)
    (code_length : nat) (rng : list R) :
  (forall keys, is_argsort keys (sort_indices keys)) ->
  (1 <= code_length)%nat ->
  length rng = code_length ->
  Forall (fun r => 0 < r) rng ->
  exists table,
    train_modes sort_indices code_length rng = Ok table /\
    Forall (Forall (fun x => (0 <= x <= Z.of_nat code_length)%Z)) table.
Proof.
  intros Hsort HL Hlen Hpos.
  destruct (@table_structure sort_indices code_length rng Hsort HL Hlen
              Hpos)
    as [rmax [mm [rest [_ [_ [_ [_ [Hmm [_ [Hlmm [Hall [Hen [Hperm [Hrest
        [Hs Ht]]]]]]]]]]]]]]].
  eexists. split; [exact Ht|].
  apply Forall_forall. intros row Hrow.
  destruct (@table_row_index code_length mm rest row Hrow) as [i [Hi ->]].
  destruct (@selected_index_tail code_length mm rest i Hperm Hi)
    as [_ Htl].
  destruct (candidates_tail_axis _ _ _ Htl) as [d [k [Hd [Hk ->]]]].
  assert (Hmd : (nth d mm 0 <= Z.of_nat code_length + 1)%Z).
  { rewrite Forall_forall in Hall. apply Hall, nth_In. lia. }
  unfold axis_row. apply set_nth_bounded; [lia|].
  apply repeat_Forall. lia.
Qed.

Lemma table_entries_bounded_witness :
  exists table, train_modes argsort 1 [1] = Ok table.
Proof.
  destruct (@table_entries_bounded argsort 1 [1] argsort_ok ltac:(lia)
              eq_refl ltac:(repeat constructor; lra))
    as [table [Ht _]].
  exists table. exact Ht.
Defined.

(** * The codec part of [train] as a whole *)

Lemma Forall_nth_all (P : R -> Prop) (xs : list R) :
  (forall j, (j < length xs)%nat -> P (nth j xs 0)) -> Forall P xs.
Proof.
  intros H. apply Forall_forall. intros x Hx.
  destruct (In_nth _ _ 0 Hx) as [j [Hj <-]]. now apply H.
Qed.

(** Lines 39-44 on a non-empty matrix: bounds and strictly positive
    ranges for each of the [code_length] columns. *)
Lemma fit_uniform_ranges (code_length : nat) (X : list (list R)) :
  X <> [] ->
  exists mn mx,
    fit_uniform code_length X = Ok (mn, mx) /\
    length mn = code_length /\
    length (ranges mn mx) = code_length /\
    Forall (fun r => 0 < r) (ranges mn mx).
Proof.
  intros Hne.
  assert (Hcol : forall j, NpR.column j X <> []).
  { intros j. unfold NpR.column. destruct X; [congruence | discriminate]. }
  destruct (@mapM_seq_spec (fun j => NpR.amin (NpR.column j X))
              (fun j m => Forall (fun y => m <= y) (NpR.column j X))
              code_length) as [lo [Hlo [Hllo Hlo_le]]].
  { intros j _. apply amin_spec, Hcol. }
  destruct (@mapM_seq_spec (fun j => NpR.amax (NpR.column j X))
              (fun j m => Forall (fun y => y <= m) (NpR.column j X))
              code_length) as [hi [Hhi [Hlhi Hhi_le]]].
  { intros j _. destruct (amax_spec (Hcol j)) as [m [Hm [_ Hle]]]. eauto. }
  exists (map (fun x => x - eps) lo), (map (fun x => x + eps) hi).
  assert (Hlr : length (ranges (map (fun x => x - eps) lo)
                               (map (fun x => x + eps) hi)) = code_length)
    by (unfold ranges; rewrite zip_with_length, !length_map; lia).
  split; [|split; [|split]].
  - unfold fit_uniform, NpR.min0, NpR.max0. rewrite Hlo, Hhi. reflexivity.
  - now rewrite length_map.
  - exact Hlr.
  - apply Forall_nth_all. intros j Hj. rewrite Hlr in Hj.
    unfold ranges. rewrite zip_with_nth by (rewrite length_map; lia).
    rewrite (@nth_map_in _ _ (fun x => x - eps) lo 0 0) by lia.
    rewrite (@nth_map_in _ _ (fun x => x + eps) hi 0 0) by lia.
    pose proof eps_pos as He.
    destruct X as [|row X']; [congruence|].
    specialize (Hlo_le j Hj). specialize (Hhi_le j Hj).
    rewrite Forall_forall in Hlo_le, Hhi_le.
    pose proof (Hlo_le _ (@column_In j (row :: X') row (or_introl eq_refl))).
    pose proof (Hhi_le _ (@column_In j (row :: X') row (or_introl eq_refl))).
    lra.
Qed.

Lemma generate_code_shape (data : list (list R)) (code_length : nat)
    (pca : PCA) (mn rng : list R) (modes : list (list R)) :
  length modes = code_length ->
  exists out,
    generate_code data code_length pca mn rng modes = Ok out /\
    length out = length data /\
    Forall (fun row => length row = code_length) out.
Proof.
  intros Hmodes. eexists. split; [apply generate_code_rows; lia|].
  split.
  - unfold shifted, pca_transform. now rewrite !length_map.
  - apply Forall_forall. intros row Hrow. apply in_map_iff in Hrow.
    destruct Hrow as [v [<- _]].
    rewrite length_map, length_firstn. unfold omegas_of.
    rewrite length_map. lia.
Qed.

(** X10. The codec part of [train] returns codes of the right shape on
    well-shaped input: for a code length [L >= 1], a projector with [L]
    directions and non-empty training, query and retrieval matrices,
    lines 36-63 raise nothing and return one code row per query row and
    per retrieval row, each of length [L]. *)
Theorem train_codes_total (sort_indices : list R -> list nat)
    (code_length : nat) (pca : PCA)
    (train_data query_data retrieval_data : list (list R)) :
  (forall keys, is_argsort keys (sort_indices keys)) ->
  (1 <= code_length)%nat ->
  length (components_ pca) = code_length ->
  Forall (fun c => length c = length (mean_ pca)) (components_ pca) ->
  train_data <> [] -> query_data <> [] -> retrieval_data <> [] ->
  data_of pca train_data -> data_of pca query_data ->
  data_of pca retrieval_data ->
  exists query_code retrieval_code,
    train_codes sort_indices code_length pca train_data query_data
      retrieval_data = Ok (query_code, retrieval_code) /\
    length query_code = length query_data /\
    length retrieval_code = length retrieval_data /\
    Forall (fun row => length row = code_length)
           (query_code ++ retrieval_code).
Proof.
  intros Hsort HL Hpca _ Hne _ _ _ _ _.
  assert (HX : pca_transform pca train_data <> []).
  { unfold pca_transform. destruct train_data; [congruence | discriminate]. }
  destruct (@fit_uniform_ranges code_length _ HX)
    as [mn [mx [Hfit [Hmn [Hlr Hpos]]]]].
  destruct (@table_structure sort_indices code_length (ranges mn mx) Hsort
              HL Hlr Hpos)
    as [rmax [mm [rest [_ [_ [_ [_ [_ [_ [_ [_ [_ [_ [Hrest [_ Ht]]]]]]]]]]]]]]].
  set (table := map (fun i => nth i (candidates_spec code_length mm) [])
                    (firstn code_length rest)) in *.
  assert (Htl : length (to_float table) = code_length).
  { unfold to_float, table. rewrite !length_map, length_firstn. lia. }
  destruct (@generate_code_shape query_data code_length pca mn
              (ranges mn mx) (to_float table) Htl) as [q [Hq [Hql Hqr]]].
  destruct (@generate_code_shape retrieval_data code_length pca mn
              (ranges mn mx) (to_float table) Htl) as [r [Hr [Hrl Hrr]]].
  exists q, r. unfold train_codes. rewrite Hfit. cbn [bind fst snd].
  rewrite Ht. cbn [bind]. rewrite Hq. cbn [bind]. rewrite Hr. cbn [bind].
  repeat split; auto. apply Forall_app. split; assumption.
Qed.

Lemma train_codes_total_witness :
  exists q r,
    train_codes argsort 1 {| mean_ := [0]; components_ := [[1]] |}
      [[0]; [2]] [[1]] [[3]] = Ok (q, r)
    /\ length q = 1%nat /\ length r = 1%nat.
Proof.
  destruct (@train_codes_total argsort 1
              {| mean_ := [0]; components_ := [[1]] |}
              [[0]; [2]] [[1]] [[3]] argsort_ok ltac:(lia) eq_refl
              ltac:(repeat constructor) ltac:(discriminate)
              ltac:(discriminate) ltac:(discriminate)
              ltac:(repeat constructor) ltac:(repeat constructor)
              ltac:(repeat constructor))
    as [q [r [H [Hq [Hr _]]]]].
  exists q, r. repeat split; assumption.
Defined.

(** X11. A call of [generate_code] changes no array that existed before
    it: every location of the store holds afterwards what it held
    before, and the result is returned in a location that was not in
    use. *)
Theorem generate_code_frame (h h1 : Store.store)
    (data mn rng modes o1 : Store.loc) (code_length : nat) (pca : PCA)
    (d mnv r md : Store.array) :
  nth_error h data = Some d ->
  nth_error h mn = Some mnv ->
  nth_error h rng = Some r ->
  nth_error h modes = Some md ->
  generate_code_st data code_length pca mn rng modes h = Ok (o1, h1) ->
  (length h <= o1 < length h1)%nat
  /\ forall l a, nth_error h l = Some a -> nth_error h1 l = Some a.
Proof.
  intros Hd Hmn Hr Hmodes Hrun.
  pose proof (@generate_code_st_run h data mn rng modes code_length pca
                d mnv r md Hd Hmn Hr Hmodes) as H.
  destruct (generate_code d code_length pca (row_of mnv) (row_of r) md)
    as [code | e]; [|congruence].
  destruct H as [tmp H]. rewrite H in Hrun. injection Hrun as <- <-.
  split.
  - rewrite !length_app. simpl. lia.
  - intros l a Hl. now do 2 apply nth_error_old.
Qed.

Lemma generate_code_frame_witness :
  exists o1 h1,
    generate_code_st 0%nat 1 {| mean_ := [0]; components_ := [[1]] |}
      1%nat 2%nat 3%nat [[[0]]; [[0]]; [[1]]; [[1]]] = Ok (o1, h1)
    /\ (4 <= o1 < length h1)%nat.
Proof.
  pose proof (@generate_code_st_run [[[0]]; [[0]]; [[1]]; [[1]]]
                0%nat 1%nat 2%nat 3%nat 1
                {| mean_ := [0]; components_ := [[1]] |}
                [[0]] [[0]] [[1]] [[1]] eq_refl eq_refl eq_refl eq_refl)
    as Hrun.
  rewrite generate_code_rows in Hrun by (simpl; lia).
  destruct Hrun as [tmp Hrun].
  eexists _, _. split; [exact Hrun|].
  apply (@generate_code_frame [[[0]]; [[0]]; [[1]]; [[1]]] _
           0%nat 1%nat 2%nat 3%nat _ 1
           {| mean_ := [0]; components_ := [[1]] |}
           [[0]] [[0]] [[1]] [[1]] eq_refl eq_refl eq_refl eq_refl Hrun).
Defined.

(** * The configuration and the driver *)

Lemma split_nonempty (sep : ascii) (s : list ascii) : Py.split sep s <> [].
Proof.
  induction s as [|c s IH]; simpl; [discriminate|].
  destruct (Ascii.eqb c sep); [discriminate|].
  destruct (Py.split sep s); [congruence | discriminate].
Qed.

(** Splitting distributes over a separator: the pieces before it, then
    the pieces after it. *)
Lemma split_app_sep (sep : ascii) (a b : list ascii) :
  Py.split sep (a ++ sep :: b) = Py.split sep a ++ Py.split sep b.
Proof.
  induction a as [|c a IH]; simpl.
  - now rewrite Ascii.eqb_refl.
  - destruct (Ascii.eqb c sep); [now rewrite IH|].
    rewrite IH. pose proof (split_nonempty sep a) as Hne.
    destruct (Py.split sep a) as [|p ps]; [congruence|]. reflexivity.
Qed.

Lemma split_no_sep (sep : ascii) (p : list ascii) :
  ~ In sep p -> Py.split sep p = [p].
Proof.
  induction p as [|c p IH]; intros Hn; simpl; [reflexivity|].
  destruct (Ascii.eqb_spec c sep) as [-> | _]; [exfalso; apply Hn; now left|].
  rewrite IH by (intros H; apply Hn; now right). reflexivity.
Qed.

Lemma split_join (sep : ascii) (pieces : list (list ascii)) :
  pieces <> [] ->
  Forall (fun p => ~ In sep p) pieces ->
  Py.split sep (Py.join sep pieces) = pieces.
Proof.
  intros Hne Hall. induction Hall as [|p ps Hp Hps IH]; [congruence|].
  destruct ps as [|q ps].
  - simpl. now apply split_no_sep.
  - change (Py.join sep (p :: q :: ps))
      with (p ++ sep :: Py.join sep (q :: ps)).
    rewrite split_app_sep, split_no_sep by exact Hp.
    rewrite IH by discriminate. reflexivity.
Qed.

Lemma chars_of_uint_digits (d : Decimal.uint) :
  Forall (fun c => In c digit_chars) (Py.chars_of_uint d).
Proof.
  induction d; simpl; constructor; auto; unfold digit_chars; simpl; tauto.
Qed.

Lemma digit_char_facts (c : ascii) :
  In c digit_chars ->
  Py.is_space c = false /\ c <> ","%char
  /\ Ascii.eqb c "+" = false /\ Ascii.eqb c "-" = false
  /\ exists v, Py.digit_value c = Some v.
Proof.
  unfold digit_chars. simpl.
  intros [<- | [<- | [<- | [<- | [<- | [<- | [<- | [<- | [<- | [<- | []]]]]]]]]]];
    repeat split; try reflexivity; try discriminate; eexists; reflexivity.
Qed.

Lemma digits_chars (d : Decimal.uint) :
  forall acc : nat,
    Py.digits (Z.of_nat acc) true (Py.chars_of_uint d)
    = Some (Z.of_nat (Nat.of_uint_acc d acc)).
Proof.
  induction d; intros acc; cbn [Py.chars_of_uint Nat.of_uint_acc];
    [reflexivity| | | | | | | | | |];
    cbn [Py.digits];
    match goal with
    | |- context [Py.digit_value ?c] =>
        let v := eval vm_compute in (Py.digit_value c) in
        change (Py.digit_value c) with v
    end;
    cbv iota; rewrite <- IHd; f_equal; rewrite Nat.tail_mul_spec; lia.
Qed.

Lemma lstrip_no_space (s : list ascii) :
  match s with [] => True | c :: _ => Py.is_space c = false end ->
  Py.lstrip s = s.
Proof. destruct s as [|c s]; simpl; [reflexivity|]. now intros ->. Qed.

Lemma strip_digits (s : list ascii) :
  Forall (fun c => In c digit_chars) s -> Py.strip s = s.
Proof.
  intros H. unfold Py.strip.
  assert (Hs : forall t, Forall (fun c => In c digit_chars) t ->
                         Py.lstrip t = t).
  { intros t Ht. apply lstrip_no_space. destruct Ht as [|c t Hc _]; [exact I|].
    apply (@digit_char_facts c Hc). }
  rewrite (Hs s H).
  rewrite Hs by (apply Forall_rev; exact H).
  apply rev_involutive.
Qed.

Lemma to_uint_chars_nonempty (n : nat) :
  Py.chars_of_uint (Nat.to_uint n) <> [].
Proof.
  pose proof (DecimalNat.Unsigned.of_to n) as Hof.
  destruct (Nat.to_uint n) eqn:E; simpl; try discriminate.
  cbn in Hof. subst n. discriminate.
Qed.

(** [int(str(n)) = n]. *)
Lemma int_str (n : nat) : Py.int (Py.str n) = Ok (Z.of_nat n).
Proof.
  unfold Py.int, Py.str.
  rewrite strip_digits by apply chars_of_uint_digits.
  pose proof (chars_of_uint_digits (Nat.to_uint n)) as Hd.
  pose proof (to_uint_chars_nonempty n) as Hne.
  pose proof (digits_chars (Nat.to_uint n) 0) as Hdig.
  fold (Nat.of_uint (Nat.to_uint n)) in Hdig.
  rewrite DecimalNat.Unsigned.of_to in Hdig.
  destruct (Py.chars_of_uint (Nat.to_uint n)) as [|c t]; [congruence|].
  inversion Hd as [|? ? Hc _]; subst.
  destruct (@digit_char_facts c Hc) as [_ [_ [Hplus [Hminus [v Hv]]]]].
  rewrite Hplus, Hminus. cbn [fst snd].
  cbn [Py.digits] in *. rewrite Hv in *. simpl Z.of_nat in Hdig.
  rewrite Hdig. f_equal. lia.
Qed.

Lemma str_no_comma (n : nat) : ~ In ","%char (Py.str n).
Proof.
  intros H. pose proof (chars_of_uint_digits (Nat.to_uint n)) as Hd.
  rewrite Forall_forall in Hd. specialize (Hd _ H).
  now apply (@digit_char_facts _ Hd).
Qed.

(** X12. A comma-separated list of decimal numbers is read back as
    that list: parsing [",".join(str(n) for n in ns)] yields [ns], for
    every non-empty list of natural numbers. *)
Theorem parse_code_lengths_round_trip (ns : list nat) :
  ns <> [] ->
  parse_code_lengths (Py.join "," (map Py.str ns)) = Ok (map Z.of_nat ns).
Proof.
  intros Hne. unfold parse_code_lengths.
  rewrite split_join.
  - rewrite (mapM_ext Py.int (fun p => Py.int p) (map Py.str ns))
      by reflexivity.
    induction ns as [|n ns IH]; [congruence|]. simpl.
    rewrite int_str. simpl.
    destruct ns as [|m ns]; [reflexivity|].
    rewrite IH by discriminate. reflexivity.
  - destruct ns; [congruence | discriminate].
  - apply Forall_forall. intros p Hp. apply in_map_iff in Hp.
    destruct Hp as [n [<- _]]. apply str_no_comma.
Qed.

Lemma parse_code_lengths_round_trip_witness :
  parse_code_lengths (Py.join "," (map Py.str [8; 16]%nat))
  = Ok [8; 16]%Z.
Proof.
  exact (@parse_code_lengths_round_trip [8; 16]%nat ltac:(discriminate)).
Defined.

Lemma int_raises_ValueError (s : list ascii) (e : exn) :
  Py.int s = Raise e -> e = ValueError.
Proof.
  unfold Py.int. destruct (Py.digits _ _ _); [discriminate|]. congruence.
Qed.

Lemma mapM_int_empty_piece (pieces : list (list ascii)) :
  In [] pieces -> NpR.mapM Py.int pieces = Raise ValueError.
Proof.
  induction pieces as [|p ps IH]; [contradiction|]. intros [-> | Hin].
  - reflexivity.
  - simpl. destruct (Py.int p) as [z | e] eqn:E; simpl.
    + now rewrite IH.
    + now rewrite (int_raises_ValueError _ E).
Qed.

(** X13. An empty piece in the code-length list stops the driver before
    anything is trained, whatever else the list holds: the empty
    argument, a leading comma, a trailing comma and a doubled comma all
    make [run] raise ValueError with no checkpoint saved. *)
Theorem run_rejects_empty_piece (checkpoint : Type) (setup : result unit)
    (train : Z -> result checkpoint)
    (log_info save : Z -> checkpoint -> result unit) (s t : list ascii) :
  run setup train log_info save [] = (Raise ValueError, [])
  /\ run setup train log_info save (","%char :: s) = (Raise ValueError, [])
  /\ run setup train log_info save (s ++ [","%char])
     = (Raise ValueError, [])
  /\ run setup train log_info save (s ++ ","%char :: ","%char :: t)
     = (Raise ValueError, []).
Proof.
  assert (H : forall arg, In [] (Py.split "," arg) ->
                          run setup train log_info save arg
                          = (Raise ValueError, [])).
  { intros arg Hin. unfold run, parse_code_lengths.
    now rewrite (mapM_int_empty_piece _ Hin). }
  assert (Hlead : forall u, In [] (Py.split "," (","%char :: u))).
  { intros u.
    change (Py.split "," (","%char :: u)) with ([] :: Py.split "," u).
    now left. }
  split; [|split; [|split]]; apply H.
  - simpl. now left.
  - apply Hlead.
  - rewrite split_app_sep. apply in_or_app. right. simpl. now left.
  - rewrite split_app_sep. apply in_or_app. right. apply Hlead.
Qed.

Section DriverLoop.

Variable checkpoint : Type.
Variable train : Z -> result checkpoint.
Variable log_info save : Z -> checkpoint -> result unit.

(** A turn in which the three calls return. *)
Lemma loop_body_completes (c : Z) (ck : checkpoint) :
  train c = Ok ck -> log_info c ck = Ok tt -> save c ck = Ok tt ->
  loop_body train log_info save c = Ok ck.
Proof.
  intros Ht Hl Hs. unfold loop_body. rewrite Ht. cbn [bind].
  rewrite Hl. cbn [bind]. rewrite Hs. reflexivity.
Qed.

(** A turn in which one of the three calls raises. *)
Lemma loop_body_raises (c : Z) (e : exn) :
  train c = Raise e
  \/ (exists ck, train c = Ok ck
                 /\ (log_info c ck = Raise e
                     \/ (log_info c ck = Ok tt /\ save c ck = Raise e))) ->
  loop_body train log_info save c = Raise e.
Proof.
  unfold loop_body.
  intros [Ht | [ck [Ht [Hl | [Hl Hs]]]]]; rewrite Ht; cbn [bind];
    [reflexivity | |]; rewrite Hl; cbn [bind]; [reflexivity|].
  rewrite Hs. reflexivity.
Qed.

Lemma run_loop_completes (code_lengths : list Z) (cks : list checkpoint) :
  Forall2 (fun c ck => train c = Ok ck /\ log_info c ck = Ok tt
                       /\ save c ck = Ok tt) code_lengths cks ->
  forall rest saved,
    run_loop train log_info save (code_lengths ++ rest) saved
    = run_loop train log_info save rest
        (saved ++ combine code_lengths cks).
Proof.
  induction 1 as [|c ck cls cks [Ht [Hl Hs]] _ IH]; intros rest saved.
  - simpl. now rewrite app_nil_r.
  - cbn [app run_loop combine].
    rewrite (loop_body_completes Ht Hl Hs), IH.
    now rewrite <- app_assoc.
Qed.

End DriverLoop.

(** X14. The driver stops at the first turn of the loop in which
    [train], [logger.info] or [torch.save] raises: the exception leaves
    [run]; the checkpoints of the turns before it, which all three calls
    completed, and only those, have been saved, in order; the checkpoint
    of the failing turn is not saved and the code lengths after it are
    never trained. *)
Theorem run_stops_at_first_failure (checkpoint : Type)
    (setup : result unit) (train : Z -> result checkpoint)
    (log_info save : Z -> checkpoint -> result unit) (arg : list ascii)
    (before after : list Z) (failing : Z) (cks : list checkpoint)
    (e : exn) :
  parse_code_lengths arg = Ok (before ++ failing :: after) ->
  setup = Ok tt ->
  Forall2 (fun c ck => train c = Ok ck /\ log_info c ck = Ok tt
                       /\ save c ck = Ok tt) before cks ->
  (train failing = Raise e
   \/ (exists ck, train failing = Ok ck
                  /\ (log_info failing ck = Raise e
                      \/ (log_info failing ck = Ok tt
                          /\ save failing ck = Raise e)))) ->
  run setup train log_info save arg = (Raise e, combine before cks).
Proof.
  intros Hparse Hsetup Hok Hfail. unfold run. rewrite Hparse, Hsetup.
  rewrite (@run_loop_completes checkpoint train log_info save before cks
             Hok).
  cbn [run_loop app].
  rewrite (@loop_body_raises checkpoint train log_info save failing e
             Hfail).
  reflexivity.
Qed.

Lemma run_stops_at_first_failure_witness :
  run (Ok tt) (fun c => Ok (2 * c)%Z) (fun _ _ => Ok tt)
      (fun c _ => if (c =? 16)%Z then Raise OSError else Ok tt)
      ["8"; ","; "1"; "6"; ","; "2"; "4"]%char
  = (Raise OSError, [(8, 16)]%Z).
Proof.
  refine (@run_stops_at_first_failure Z (Ok tt) (fun c => Ok (2 * c)%Z)
            (fun _ _ => Ok tt)
            (fun c _ => if (c =? 16)%Z then Raise OSError else Ok tt)
            ["8"; ","; "1"; "6"; ","; "2"; "4"]%char
            [8]%Z [24]%Z 16%Z [16]%Z OSError eq_refl eq_refl _ _).
  - repeat constructor.
  - right. exists 32%Z. split; [reflexivity|]. right. split; reflexivity.
Defined.

(** X15. When [train], [logger.info] and [torch.save] return on every
    code length, the driver saves one checkpoint per code length, in the
    order of the argument. *)
Theorem run_saves_every_checkpoint (checkpoint : Type)
    (setup : result unit) (train : Z -> result checkpoint)
    (log_info save : Z -> checkpoint -> result unit) (arg : list ascii)
    (code_lengths : list Z) (cks : list checkpoint) :
  parse_code_lengths arg = Ok code_lengths ->
  setup = Ok tt ->
  Forall2 (fun c ck => train c = Ok ck /\ log_info c ck = Ok tt
                       /\ save c ck = Ok tt) code_lengths cks ->
  run setup train log_info save arg = (Ok tt, combine code_lengths cks).
Proof.
  intros Hparse Hsetup Hok. unfold run. rewrite Hparse, Hsetup.
  rewrite <- (app_nil_r code_lengths) at 1.
  rewrite (@run_loop_completes checkpoint train log_info save code_lengths
             cks Hok).
  reflexivity.
Qed.

Lemma run_saves_every_checkpoint_witness :
  run (Ok tt) (fun c => Ok (2 * c)%Z) (fun _ _ => Ok tt)
      (fun _ _ => Ok tt) ["8"; ","; "1"; "6"]%char
  = (Ok tt, [(8, 16); (16, 32)]%Z).
Proof.
  refine (@run_saves_every_checkpoint Z (Ok tt) (fun c => Ok (2 * c)%Z)
            (fun _ _ => Ok tt) (fun _ _ => Ok tt)
            ["8"; ","; "1"; "6"]%char [8; 16]%Z [16; 32]%Z
            eq_refl eq_refl _).
  repeat constructor.
Defined.
